(** * Quran Live Stream: the session component of [src/App.tsx]

    A shallow embedding of the [App] component: its React state
    ([useState]), its refs ([useRef]) and the callbacks that change them
    ([startSession], [stopSession], and the [onopen] / [onmessage] /
    [onerror] / [onclose] callbacks handed to the live session).

    Conventions.
    - Every callback is a function [state -> state].  The host runtime is a
      single cooperative event loop, so a trace of the program is a list of
      events and [run] folds [step] over it.
    - [startSession] is an [async] function: it is cut at its two [await]s
      into [startSession_begin], [startSession_media] and
      [startSession_connected]; its [catch] block is [startSession_catch].
      The environment decides when (and whether) each continuation runs, so
      they are events of their own.
    - [onmessage] is [async] too; its only [await] is the decoding of the
      audio payload.  The decoder lives in [utils/audio-helpers]; a message
      is handled to completion before the next event is taken.
    - Calls on browser and SDK objects ([close], [start], [stop], ...) are
      recorded, oldest first, in the [trace] field.
    - Times (the output context's [currentTime], buffer durations,
      [nextStartTimeRef]) are JavaScript numbers, that is IEEE 754 doubles.
      A finite double is a rational number, and times are kept as such;
      [Math.max] and the comparisons are exact on them, and [number_add] is
      the addition of doubles: the exact sum rounded to the nearest double,
      ties to even.  Infinities and NaN do not arise for times and are left
      out. *)

From Stdlib Require Import QArith Qpower Qminmax Qabs Qreduction Lqa Lia.
From Stdlib Require Import Ascii DecimalString DecimalNat.
From stdpp Require Import base list strings.

Open Scope string_scope.
Open Scope list_scope.

(** ** JavaScript numbers *)

(** The integer nearest to [q], the even one of two that are equally
    near. *)
Definition round_half_even (q : Q) : Z :=
  let n := Qnum q in
  let d := Z.pos (Qden q) in
  let f := (n / d)%Z in
  match (2 * (n mod d) ?= d)%Z with
  | Lt => f
  | Gt => (f + 1)%Z
  | Eq => if Z.even f then f else (f + 1)%Z
  end.

(** The integer part of the binary logarithm of [|q|], for [q] not zero. *)
Definition floor_log2 (q : Q) : Z :=
  let k := (Z.log2 (Z.abs (Qnum q)) - Z.log2 (Z.pos (Qden q)))%Z in
  if Qle_bool (2 ^ k) (Qabs q) then k else (k - 1)%Z.

(** The exponent of the last place of the double nearest to [q]: doubles
    have 53 significant bits, and no place below [2 ^ -1074]. *)
Definition exponent (q : Q) : Z := Z.max (floor_log2 q - 52) (-1074).

(** The unit in the last place at [q]. *)
Definition ulp (q : Q) : Q := (2 ^ exponent q)%Q.

(** The double nearest to [q], ties to even. *)
Definition round53 (q : Q) : Q :=
  if Qeq_bool q 0 then 0%Q
  else Qred (inject_Z (round_half_even (q / ulp q)) * ulp q)%Q.

(** [a + b] on JavaScript numbers. *)
Definition number_add (a b : Q) : Q := round53 (a + b).

(** ** Data model ([types.ts]) *)

Record VerseIdentification := {
  surahName : string;
  ayahNumber : string;
  transcription : string;
  translationEn : string;
  translationEs : string
}.

Inductive AppState := IDLE | CONNECTING | LISTENING | ERROR.

Record TranscriptionItem := {
  text : string;
  isUser : bool;
  timestamp : Z
}.

#[global] Instance AppState_eq_dec : EqDecision AppState.
Proof. solve_decision. Defined.

(** ** Browser and SDK objects *)

(** The part of an [AudioBuffer] the component reads. *)
Record AudioBuffer := { duration : Q }.

(** Sessions, audio contexts, gain nodes and buffer sources are objects;
    they are named by the number under which they were created. *)
Definition handle := nat.

Module FunctionCall.
Record t := {
  id : string;
  name : string;
  args : VerseIdentification
}.
End FunctionCall.

(** [message.serverContent.inputTranscription]: an object whose [text] may
    be missing. *)
Module Transcription.
Record t := { text : option string }.
End Transcription.

(** [message.serverContent], with [modelTurn_data] standing for the chain
    [modelTurn?.parts?.[0]?.inlineData?.data]. *)
Record ServerContent := {
  modelTurn_data : option string;
  interrupted : bool;
  inputTranscription : option Transcription.t;
  turnComplete : bool
}.

Record LiveServerMessage := {
  serverContent : option ServerContent;
  toolCall : option (list FunctionCall.t)
}.

(** Calls made on objects outside the component; [SendToolResponse] is the
    call queued on the session promise, and [SourcesClear] is the call of
    [clear] on the set of playing sources. *)
Inductive effect :=
| SessionClose (session : handle)
| ContextClose (ctx : handle)
| SourceStart (source : handle) (when : Q) (buffer : AudioBuffer)
| SourceStop (source : handle)
| SourcesClear
| SendToolResponse (id name : string).

(** ** Component state *)

Record state := {
  (* useState *)
  appState : AppState;
  transcriptions : list TranscriptionItem;
  verseHistory : list VerseIdentification;
  error : option string;
  isVerifyingSequence : bool;
  (* useRef *)
  sessionRef : option handle;
  audioContextRef : option handle;
  outputAudioContextRef : option handle;
  outputNodeRef : option handle;
  nextStartTimeRef : Q;
  sourcesRef : list handle;
  transcriptionBufferRef : string * string;
  lastVerseRef : option (string * string);
  (* the world outside *)
  next_handle : handle;
  trace : list effect
}.

Definition init : state := {|
  appState := IDLE;
  transcriptions := [];
  verseHistory := [];
  error := None;
  isVerifyingSequence := false;
  sessionRef := None;
  audioContextRef := None;
  outputAudioContextRef := None;
  outputNodeRef := None;
  nextStartTimeRef := 0%Q;
  sourcesRef := [];
  transcriptionBufferRef := ("", "");
  lastVerseRef := None;
  next_handle := 0%nat;
  trace := []
|}.

(** Field updates. *)
Definition setAppState (v : AppState) (s : state) : state :=
  {| appState := v; transcriptions := transcriptions s;
     verseHistory := verseHistory s; error := error s;
     isVerifyingSequence := isVerifyingSequence s;
     sessionRef := sessionRef s; audioContextRef := audioContextRef s;
     outputAudioContextRef := outputAudioContextRef s;
     outputNodeRef := outputNodeRef s;
     nextStartTimeRef := nextStartTimeRef s; sourcesRef := sourcesRef s;
     transcriptionBufferRef := transcriptionBufferRef s;
     lastVerseRef := lastVerseRef s; next_handle := next_handle s; trace := trace s |}.

Definition setTranscriptions (v : list TranscriptionItem) (s : state) : state :=
  {| appState := appState s; transcriptions := v;
     verseHistory := verseHistory s; error := error s;
     isVerifyingSequence := isVerifyingSequence s;
     sessionRef := sessionRef s; audioContextRef := audioContextRef s;
     outputAudioContextRef := outputAudioContextRef s;
     outputNodeRef := outputNodeRef s;
     nextStartTimeRef := nextStartTimeRef s; sourcesRef := sourcesRef s;
     transcriptionBufferRef := transcriptionBufferRef s;
     lastVerseRef := lastVerseRef s; next_handle := next_handle s; trace := trace s |}.

Definition setVerseHistory
    (f : list VerseIdentification -> list VerseIdentification)
    (s : state) : state :=
  {| appState := appState s; transcriptions := transcriptions s;
     verseHistory := f (verseHistory s); error := error s;
     isVerifyingSequence := isVerifyingSequence s;
     sessionRef := sessionRef s; audioContextRef := audioContextRef s;
     outputAudioContextRef := outputAudioContextRef s;
     outputNodeRef := outputNodeRef s;
     nextStartTimeRef := nextStartTimeRef s; sourcesRef := sourcesRef s;
     transcriptionBufferRef := transcriptionBufferRef s;
     lastVerseRef := lastVerseRef s; next_handle := next_handle s; trace := trace s |}.

Definition setError (v : option string) (s : state) : state :=
  {| appState := appState s; transcriptions := transcriptions s;
     verseHistory := verseHistory s; error := v;
     isVerifyingSequence := isVerifyingSequence s;
     sessionRef := sessionRef s; audioContextRef := audioContextRef s;
     outputAudioContextRef := outputAudioContextRef s;
     outputNodeRef := outputNodeRef s;
     nextStartTimeRef := nextStartTimeRef s; sourcesRef := sourcesRef s;
     transcriptionBufferRef := transcriptionBufferRef s;
     lastVerseRef := lastVerseRef s; next_handle := next_handle s; trace := trace s |}.

Definition setIsVerifyingSequence (v : bool) (s : state) : state :=
  {| appState := appState s; transcriptions := transcriptions s;
     verseHistory := verseHistory s; error := error s;
     isVerifyingSequence := v;
     sessionRef := sessionRef s; audioContextRef := audioContextRef s;
     outputAudioContextRef := outputAudioContextRef s;
     outputNodeRef := outputNodeRef s;
     nextStartTimeRef := nextStartTimeRef s; sourcesRef := sourcesRef s;
     transcriptionBufferRef := transcriptionBufferRef s;
     lastVerseRef := lastVerseRef s; next_handle := next_handle s; trace := trace s |}.

Definition set_sessionRef (v : option handle) (s : state) : state :=
  {| appState := appState s; transcriptions := transcriptions s;
     verseHistory := verseHistory s; error := error s;
     isVerifyingSequence := isVerifyingSequence s;
     sessionRef := v; audioContextRef := audioContextRef s;
     outputAudioContextRef := outputAudioContextRef s;
     outputNodeRef := outputNodeRef s;
     nextStartTimeRef := nextStartTimeRef s; sourcesRef := sourcesRef s;
     transcriptionBufferRef := transcriptionBufferRef s;
     lastVerseRef := lastVerseRef s; next_handle := next_handle s; trace := trace s |}.

Definition set_audioContextRef (v : option handle) (s : state) : state :=
  {| appState := appState s; transcriptions := transcriptions s;
     verseHistory := verseHistory s; error := error s;
     isVerifyingSequence := isVerifyingSequence s;
     sessionRef := sessionRef s; audioContextRef := v;
     outputAudioContextRef := outputAudioContextRef s;
     outputNodeRef := outputNodeRef s;
     nextStartTimeRef := nextStartTimeRef s; sourcesRef := sourcesRef s;
     transcriptionBufferRef := transcriptionBufferRef s;
     lastVerseRef := lastVerseRef s; next_handle := next_handle s; trace := trace s |}.

Definition set_outputAudioContextRef (v : option handle) (s : state) : state :=
  {| appState := appState s; transcriptions := transcriptions s;
     verseHistory := verseHistory s; error := error s;
     isVerifyingSequence := isVerifyingSequence s;
     sessionRef := sessionRef s; audioContextRef := audioContextRef s;
     outputAudioContextRef := v;
     outputNodeRef := outputNodeRef s;
     nextStartTimeRef := nextStartTimeRef s; sourcesRef := sourcesRef s;
     transcriptionBufferRef := transcriptionBufferRef s;
     lastVerseRef := lastVerseRef s; next_handle := next_handle s; trace := trace s |}.

Definition set_outputNodeRef (v : option handle) (s : state) : state :=
  {| appState := appState s; transcriptions := transcriptions s;
     verseHistory := verseHistory s; error := error s;
     isVerifyingSequence := isVerifyingSequence s;
     sessionRef := sessionRef s; audioContextRef := audioContextRef s;
     outputAudioContextRef := outputAudioContextRef s;
     outputNodeRef := v;
     nextStartTimeRef := nextStartTimeRef s; sourcesRef := sourcesRef s;
     transcriptionBufferRef := transcriptionBufferRef s;
     lastVerseRef := lastVerseRef s; next_handle := next_handle s; trace := trace s |}.

Definition set_nextStartTimeRef (v : Q) (s : state) : state :=
  {| appState := appState s; transcriptions := transcriptions s;
     verseHistory := verseHistory s; error := error s;
     isVerifyingSequence := isVerifyingSequence s;
     sessionRef := sessionRef s; audioContextRef := audioContextRef s;
     outputAudioContextRef := outputAudioContextRef s;
     outputNodeRef := outputNodeRef s;
     nextStartTimeRef := v; sourcesRef := sourcesRef s;
     transcriptionBufferRef := transcriptionBufferRef s;
     lastVerseRef := lastVerseRef s; next_handle := next_handle s; trace := trace s |}.

Definition set_sourcesRef (v : list handle) (s : state) : state :=
  {| appState := appState s; transcriptions := transcriptions s;
     verseHistory := verseHistory s; error := error s;
     isVerifyingSequence := isVerifyingSequence s;
     sessionRef := sessionRef s; audioContextRef := audioContextRef s;
     outputAudioContextRef := outputAudioContextRef s;
     outputNodeRef := outputNodeRef s;
     nextStartTimeRef := nextStartTimeRef s; sourcesRef := v;
     transcriptionBufferRef := transcriptionBufferRef s;
     lastVerseRef := lastVerseRef s; next_handle := next_handle s; trace := trace s |}.

Definition set_transcriptionBufferRef (v : string * string) (s : state) : state :=
  {| appState := appState s; transcriptions := transcriptions s;
     verseHistory := verseHistory s; error := error s;
     isVerifyingSequence := isVerifyingSequence s;
     sessionRef := sessionRef s; audioContextRef := audioContextRef s;
     outputAudioContextRef := outputAudioContextRef s;
     outputNodeRef := outputNodeRef s;
     nextStartTimeRef := nextStartTimeRef s; sourcesRef := sourcesRef s;
     transcriptionBufferRef := v;
     lastVerseRef := lastVerseRef s; next_handle := next_handle s; trace := trace s |}.

Definition set_lastVerseRef (v : option (string * string)) (s : state) : state :=
  {| appState := appState s; transcriptions := transcriptions s;
     verseHistory := verseHistory s; error := error s;
     isVerifyingSequence := isVerifyingSequence s;
     sessionRef := sessionRef s; audioContextRef := audioContextRef s;
     outputAudioContextRef := outputAudioContextRef s;
     outputNodeRef := outputNodeRef s;
     nextStartTimeRef := nextStartTimeRef s; sourcesRef := sourcesRef s;
     transcriptionBufferRef := transcriptionBufferRef s;
     lastVerseRef := v; next_handle := next_handle s; trace := trace s |}.

(** [new_object s] creates an object and returns its name. *)
Definition new_object (s : state) : handle * state :=
  (next_handle s,
   {| appState := appState s; transcriptions := transcriptions s;
      verseHistory := verseHistory s; error := error s;
      isVerifyingSequence := isVerifyingSequence s;
      sessionRef := sessionRef s; audioContextRef := audioContextRef s;
      outputAudioContextRef := outputAudioContextRef s;
      outputNodeRef := outputNodeRef s;
      nextStartTimeRef := nextStartTimeRef s; sourcesRef := sourcesRef s;
      transcriptionBufferRef := transcriptionBufferRef s;
      lastVerseRef := lastVerseRef s; next_handle := S (next_handle s);
      trace := trace s |}).

(** [call e s] records the call [e] after those already made. *)
Definition call (e : effect) (s : state) : state :=
  {| appState := appState s; transcriptions := transcriptions s;
     verseHistory := verseHistory s; error := error s;
     isVerifyingSequence := isVerifyingSequence s;
     sessionRef := sessionRef s; audioContextRef := audioContextRef s;
     outputAudioContextRef := outputAudioContextRef s;
     outputNodeRef := outputNodeRef s;
     nextStartTimeRef := nextStartTimeRef s; sourcesRef := sourcesRef s;
     transcriptionBufferRef := transcriptionBufferRef s;
     lastVerseRef := lastVerseRef s; next_handle := next_handle s;
     trace := trace s ++ [e] |}.

(** ** JavaScript helpers *)

(** [Set.prototype.add] and [Set.prototype.delete]; a JavaScript [Set]
    keeps its members in insertion order, which is the order of
    [forEach]. *)
Definition Set_add (x : handle) (l : list handle) : list handle :=
  if bool_decide (x ∈ l) then l else l ++ [x].

Definition Set_delete (x : handle) (l : list handle) : list handle :=
  filter (λ y, y ≠ x) l.

(** The string a value becomes when it is appended to a string:
    [undefined] becomes ["undefined"]. *)
Definition String_of_optional (a : option string) : string :=
  default "undefined" a.

(** [a || d] on an optional string: [undefined] and the empty string are
    falsy. *)
Definition or_default (a : option string) (d : string) : string :=
  match a with
  | Some m => if bool_decide (m = "") then d else m
  | None => d
  end.

(** ** The callbacks *)

(** [stopSession], lines 34-49. *)
Definition stopSession (s : state) : state :=
  let s := match sessionRef s with
           | Some session => set_sessionRef None (call (SessionClose session) s)
           | None => s
           end in
  let s := match audioContextRef s with
           | Some ctx => set_audioContextRef None (call (ContextClose ctx) s)
           | None => s
           end in
  let s := match outputAudioContextRef s with
           | Some ctx => set_outputAudioContextRef None (call (ContextClose ctx) s)
           | None => s
           end in
  setIsVerifyingSequence false (setAppState IDLE s).

(** [startSession] up to its first [await], lines 53-61. *)
Definition startSession_begin (s : state) : state :=
  let s := setError None s in
  let s := setAppState CONNECTING s in
  let s := setTranscriptions [] s in
  let s := setVerseHistory (λ _, []) s in
  let s := set_lastVerseRef None s in
  set_transcriptionBufferRef ("", "") s.

(** [startSession] from the microphone stream to the second [await],
    lines 63-68: both audio contexts and the gain node are created and
    [ai.live.connect] is called. *)
Definition startSession_media (s : state) : state :=
  let '(input, s) := new_object s in
  let s := set_audioContextRef (Some input) s in
  let '(output, s) := new_object s in
  let s := set_outputAudioContextRef (Some output) s in
  let '(gain, s) := new_object s in
  set_outputNodeRef (Some gain) s.

(** [startSession] after the session promise resolved, line 185. *)
Definition startSession_connected (s : state) : state :=
  let '(session, s) := new_object s in
  set_sessionRef (Some session) s.

(** The [catch] block of [startSession], lines 187-190; [message] is
    [err.message]. *)
Definition startSession_catch (message : option string) (s : state) : state :=
  let s := setError (Some (or_default message "Failed to start session.")) s in
  setAppState IDLE s.

(** [onopen], line 72 (the microphone wiring of lines 73-85 changes
    neither the state nor the refs). *)
Definition onopen (s : state) : state := setAppState LISTENING s.

(** [onerror], lines 136-139. *)
Definition onerror (s : state) : state :=
  let s := setError (Some "Stream error. This is often caused by network latency.") s in
  stopSession s.

(** [onclose], lines 140-143. *)
Definition onclose (s : state) : state :=
  setIsVerifyingSequence false (setAppState IDLE s).

(** The listener of a source's [ended] event, line 96. *)
Definition source_ended (source : handle) (s : state) : state :=
  set_sourcesRef (Set_delete source (sourcesRef s)) s.

(** The main button, lines 206-207: it starts a session when idle, stops
    it otherwise, and is disabled while connecting. *)
Definition onClick (s : state) : state :=
  match appState s with
  | CONNECTING => s
  | IDLE => startSession_begin s
  | _ => stopSession s
  end.

(** The updater given to [setVerseHistory], lines 119-123. *)
Definition addVerse (result : VerseIdentification)
    (prev : list VerseIdentification) : list VerseIdentification :=
  let isDuplicate :=
    existsb (λ v, bool_decide (surahName v = surahName result)
                  && bool_decide (ayahNumber v = ayahNumber result)) prev in
  if isDuplicate then prev else prev ++ [result].

(** The body of the loop over [message.toolCall.functionCalls],
    lines 114-128. *)
Definition onmessage_functionCall (s : state) (fc : FunctionCall.t) : state :=
  if bool_decide (FunctionCall.name fc = "identifyQuranVerse") then
    let result := FunctionCall.args fc in
    let s := set_lastVerseRef (Some (surahName result, ayahNumber result)) s in
    let s := setIsVerifyingSequence true s in
    let s := setVerseHistory (addVerse result) s in
    call (SendToolResponse (FunctionCall.id fc) (FunctionCall.name fc)) s
  else s.

(** Lines 112-130. *)
Definition onmessage_toolCall (message : LiveServerMessage) (s : state) : state :=
  match toolCall message with
  | Some functionCalls => foldl onmessage_functionCall s functionCalls
  | None => s
  end.

(** Lines 102-106. *)
Definition onmessage_interrupted (message : LiveServerMessage) (s : state) : state :=
  match serverContent message with
  | Some content =>
      if interrupted content then
        let s := foldl (λ s source, call (SourceStop source) s) s (sourcesRef s) in
        let s := call SourcesClear (set_sourcesRef [] s) in
        set_nextStartTimeRef 0%Q s
      else s
  | None => s
  end.

(** Lines 108-110. *)
Definition onmessage_inputTranscription (message : LiveServerMessage) (s : state) : state :=
  match serverContent message with
  | Some content =>
      match inputTranscription content with
      | Some transcription =>
          let '(user, model) := transcriptionBufferRef s in
          set_transcriptionBufferRef
            (user +:+ String_of_optional (Transcription.text transcription),
             model) s
      | None => s
      end
  | None => s
  end.

(** Lines 132-134. *)
Definition onmessage_turnComplete (message : LiveServerMessage) (s : state) : state :=
  match serverContent message with
  | Some content =>
      if turnComplete content then set_transcriptionBufferRef ("", "") s else s
  | None => s
  end.

(** [message.serverContent?.modelTurn?.parts?.[0]?.inlineData?.data],
    line 88. *)
Definition base64Audio (message : LiveServerMessage) : option string :=
  match serverContent message with
  | Some content => modelTurn_data content
  | None => None
  end.

Section Session.

(** [decodeAudioData (decode base64Audio) ctx 24000 1]: the two helpers
    are imported from [utils/audio-helpers]; the buffer they produce is a
    parameter of the development. *)
Variable decodeAudioData : string -> AudioBuffer.

(** Lines 88-100; [currentTime] is [ctx.currentTime] on entry. *)
Definition onmessage_audio (currentTime : Q) (message : LiveServerMessage)
    (s : state) : state :=
  match base64Audio message, outputAudioContextRef s with
  | Some data, Some ctx =>
      if bool_decide (data = "") then s else
      let s := set_nextStartTimeRef (Qmax (nextStartTimeRef s) currentTime) s in
      let audioBuffer := decodeAudioData data in
      let '(source, s) := new_object s in
      let s := call (SourceStart source (nextStartTimeRef s) audioBuffer) s in
      let s := set_nextStartTimeRef
                 (number_add (nextStartTimeRef s) (duration audioBuffer)) s in
      set_sourcesRef (Set_add source (sourcesRef s)) s
  | _, _ => s
  end.

(** [onmessage], lines 87-135. *)
Definition onmessage (currentTime : Q) (message : LiveServerMessage)
    (s : state) : state :=
  let s := onmessage_audio currentTime message s in
  let s := onmessage_interrupted message s in
  let s := onmessage_inputTranscription message s in
  let s := onmessage_toolCall message s in
  onmessage_turnComplete message s.

(** ** Events and runs *)

Inductive event :=
| Click
| GetUserMediaResolved
| SessionResolved
| StartThrows (message : option string)
| OnOpen
| OnMessage (currentTime : Q) (message : LiveServerMessage)
| OnError
| OnClose
| SourceEnded (source : handle).

Definition step (s : state) (e : event) : state :=
  match e with
  | Click => onClick s
  | GetUserMediaResolved => startSession_media s
  | SessionResolved => startSession_connected s
  | StartThrows message => startSession_catch message s
  | OnOpen => onopen s
  | OnMessage currentTime message => onmessage currentTime message s
  | OnError => onerror s
  | OnClose => onclose s
  | SourceEnded source => source_ended source s
  end.

Definition run (events : list event) (s : state) : state :=
  foldl step s events.


(** ** Vocabulary of the properties *)

(** The pair by which verses are told apart. *)
Definition verse_key (v : VerseIdentification) : string * string :=
  (surahName v, ayahNumber v).

(** The message carries a tool call naming [identifyQuranVerse]. *)
Definition names_identifyQuranVerse (message : LiveServerMessage) : bool :=
  match toolCall message with
  | Some functionCalls =>
      existsb (λ fc, bool_decide (FunctionCall.name fc = "identifyQuranVerse"))
              functionCalls
  | None => false
  end.

(** The event runs [stopSession]: a stream error, or a click on the button
    while it reads "stop". *)
Definition stops_session (s : state) (e : event) : bool :=
  match e with
  | OnError => true
  | Click => bool_decide (appState s ≠ IDLE ∧ appState s ≠ CONNECTING)
  | _ => false
  end.

(** The flag after an event, in the words of the specification: true on a
    tool call naming [identifyQuranVerse], false when the session is stopped
    or closes, unchanged otherwise. *)
Definition isVerifyingSequence_spec (s : state) (e : event) : bool :=
  match e with
  | OnMessage _ message =>
      if names_identifyQuranVerse message then true else isVerifyingSequence s
  | OnClose => false
  | _ => if stops_session s e then false else isVerifyingSequence s
  end.

(** The edges the specification gives the application state. *)
Inductive spec_edge : AppState -> AppState -> Prop :=
| spec_start : spec_edge IDLE CONNECTING
| spec_open : spec_edge CONNECTING LISTENING
| spec_done : spec_edge LISTENING IDLE
| spec_error_connecting : spec_edge CONNECTING ERROR
| spec_error_listening : spec_edge LISTENING ERROR.

(** The changes of the application state the callbacks make. *)
Inductive transition : AppState -> event -> AppState -> Prop :=
| transition_start : transition IDLE Click CONNECTING
| transition_stop : transition LISTENING Click IDLE
| transition_open a : transition a OnOpen LISTENING
| transition_error a : transition a OnError IDLE
| transition_close a : transition a OnClose IDLE
| transition_catch a message : transition a (StartThrows message) IDLE.

(** The specification's reading of the state machine: from a reachable
    state, an event changes the application state along a [spec_edge] or
    not at all. *)
Definition spec_edges_only : Prop :=
  forall (events : list event) (e : event),
    let s := run events init in
    appState (step s e) = appState s
    \/ spec_edge (appState s) (appState (step s e)).

(** The resources of a session are released and the component is idle. *)
Definition torn_down (s : state) : Prop :=
  sessionRef s = None /\ audioContextRef s = None
  /\ outputAudioContextRef s = None /\ appState s = IDLE.

(** The buffers started, oldest first, as (start time, duration). *)
Fixpoint starts (tr : list effect) : list (Q * Q) :=
  match tr with
  | [] => []
  | SourceStart _ when buffer :: tr => (when, duration buffer) :: starts tr
  | _ :: tr => starts tr
  end.

(** [R] holds of every two neighbours of a list. *)
Fixpoint neighbours {A} (R : A -> A -> Prop) (l : list A) : Prop :=
  match l with
  | x :: (y :: _) as l' => R x y /\ neighbours R l'
  | _ => True
  end.

(** The later buffer does not start before the scheduled end of the
    earlier one. *)
Definition not_before_end (a b : Q * Q) : Prop := (a.1 + a.2 <= b.1)%Q.

(** The later buffer starts at the scheduled end of the earlier one. *)
Definition back_to_back (a b : Q * Q) : Prop := (a.1 + a.2 == b.1)%Q.

(** The scheduled end of the buffer started last, [prev] when none was
    started, and [None] when the queue was flushed since. *)
Fixpoint last_end (prev : option Q) (tr : list effect) : option Q :=
  match tr with
  | [] => prev
  | SourceStart _ when buffer :: tr =>
      last_end (Some (number_add when (duration buffer))) tr
  | SourcesClear :: tr => last_end None tr
  | _ :: tr => last_end prev tr
  end.

(** No buffer starts before the scheduled end [prev] of the buffer started
    before it, unless the queue was flushed in between. *)
Fixpoint no_overlap (prev : option Q) (tr : list effect) : Prop :=
  match tr with
  | [] => True
  | SourceStart _ when buffer :: tr =>
      match prev with Some e => (e <= when)%Q | None => True end
      /\ no_overlap (Some (number_add when (duration buffer))) tr
  | SourcesClear :: tr => no_overlap None tr
  | _ :: tr => no_overlap prev tr
  end.

(** A call that neither starts a buffer nor flushes the queue. *)
Definition neutral (e : effect) : Prop :=
  match e with
  | SourceStart _ _ _ | SourcesClear => False
  | _ => True
  end.

(** The specification's reading of the playback schedule: whatever the
    events, of two buffers started one after the other the later neither
    starts before the scheduled end of the earlier ([spec_no_overlap]) nor
    after it ([spec_no_gap]). *)
Definition spec_no_overlap : Prop :=
  forall events : list event,
    neighbours not_before_end (starts (trace (run events init))).

Definition spec_no_gap : Prop :=
  forall events : list event,
    neighbours back_to_back (starts (trace (run events init))).

(** The playback schedule is sound: no buffer started since the last flush
    overlaps the one before it, and the next-start time is the scheduled
    end of the buffer started last (zero when the queue was flushed since,
    or never used). *)
Definition playback_inv (s : state) : Prop :=
  no_overlap None (trace s)
  /\ nextStartTimeRef s = default 0%Q (last_end None (trace s)).

(** The calls [new] made since some moment keep the schedule: no buffer
    started among them overlaps the one before it, and [next] is the end
    recorded for the last of them, if none was flushed since. *)
Definition schedule_ok (new : list effect) (next : Q) : Prop :=
  no_overlap None new
  /\ from_option (λ e, next = e) True (last_end None new).

(** [call (SourceStop source)] was made for every member of [sources]. *)
Definition all_stopped (sources : list handle) (tr : list effect) : Prop :=
  Forall (λ source, SourceStop source ∈ tr) sources.

(** ** Sample data *)

(** A decoder under which every payload is a buffer of five seconds. *)
Definition five_seconds (_ : string) : AudioBuffer := {| duration := 5 |}.

Definition audio_message (data : string) : LiveServerMessage :=
  {| serverContent := Some {| modelTurn_data := Some data; interrupted := false;
                              inputTranscription := None; turnComplete := false |};
     toolCall := None |}.

Definition interruption : LiveServerMessage :=
  {| serverContent := Some {| modelTurn_data := None; interrupted := true;
                              inputTranscription := None; turnComplete := false |};
     toolCall := None |}.

Definition al_fatiha (ayah : string) : VerseIdentification :=
  {| surahName := "Al-Fatiha"; ayahNumber := ayah; transcription := "";
     translationEn := ""; translationEs := "" |}.

Definition identify (v : VerseIdentification) : LiveServerMessage :=
  {| serverContent := None;
     toolCall := Some [ {| FunctionCall.id := "call-1";
                           FunctionCall.name := "identifyQuranVerse";
                           FunctionCall.args := v |} ] |}.

(** A session that is up: the button was clicked, the microphone granted,
    the socket opened and the session promise resolved. *)
Definition listening : list event :=
  [Click; GetUserMediaResolved; OnOpen; SessionResolved].

(** ** The view *)

(** [String(index)]: the decimal numeral of a list index. *)
Definition String_of_index (index : nat) : string :=
  NilEmpty.string_of_uint (Nat.to_uint index).

(** The React key of a rendered verse, line 263:
    [`${verse.surahName}-${verse.ayahNumber}-${index}`]. *)
Definition verseKey (verse : VerseIdentification) (index : nat) : string :=
  surahName verse +:+ "-" +:+ ayahNumber verse +:+ "-" +:+ String_of_index index.

(** The keys of [verseHistory.map((verse, index) => ...)], line 262. *)
Definition verseKeys (history : list VerseIdentification) : list string :=
  imap (λ index verse, verseKey verse index) history.

(** The error banner, lines 324-331: [{error && (...{error}...)}] shows the
    message when [error] is truthy. *)
Definition errorBanner (s : state) : option string :=
  match error s with
  | Some m => if bool_decide (m = "") then None else Some m
  | None => None
  end.

(** ** Further vocabulary *)

(** The tool calls of a message that name [identifyQuranVerse], in the
    order of the message. *)
Definition identified (message : LiveServerMessage) : list FunctionCall.t :=
  match toolCall message with
  | Some functionCalls =>
      filter (λ fc, FunctionCall.name fc = "identifyQuranVerse") functionCalls
  | None => []
  end.

(** The response sent for a tool call, lines 125-127. *)
Definition toolResponse (fc : FunctionCall.t) : effect :=
  SendToolResponse (FunctionCall.id fc) (FunctionCall.name fc).

(** The tool responses among the calls made. *)
Definition responses (tr : list effect) : list effect :=
  omap (λ e, match e with SendToolResponse _ _ => Some e | _ => None end) tr.

(** The sessions and audio contexts closed, oldest first. *)
Definition closes (tr : list effect) : list handle :=
  omap (λ e, match e with
             | SessionClose h | ContextClose h => Some h
             | _ => None
             end) tr.

(** The objects held by the refs that [stopSession] closes. *)
Definition held (s : state) : list handle :=
  option_list (sessionRef s) ++ option_list (audioContextRef s)
  ++ option_list (outputAudioContextRef s).

(** The sources started, oldest first. *)
Definition started (tr : list effect) : list handle :=
  omap (λ e, match e with SourceStart h _ _ => Some h | _ => None end) tr.

(** Every source is started once, and stopped only after it was started;
    [seen] are the sources started before [tr]. *)
Fixpoint well_started (seen : list handle) (tr : list effect) : Prop :=
  match tr with
  | [] => True
  | SourceStart h _ _ :: tr => (h ∉ seen) /\ well_started (h :: seen) tr
  | SourceStop h :: tr => (h ∈ seen) /\ well_started seen tr
  | _ :: tr => well_started seen tr
  end.

(** The message carries an interruption. *)
Definition message_interrupted (message : LiveServerMessage) : bool :=
  match serverContent message with
  | Some content => interrupted content
  | None => false
  end.

(** The message ends the turn. *)
Definition message_turnComplete (message : LiveServerMessage) : bool :=
  match serverContent message with
  | Some content => turnComplete content
  | None => false
  end.

(** What a message appends to the user half of the transcription buffer:
    the text of its input transcription, ["undefined"] when the
    transcription has no text, nothing when the message carries no
    transcription. *)
Definition message_inputTranscription (message : LiveServerMessage) : string :=
  match serverContent message with
  | Some content =>
      match inputTranscription content with
      | Some transcription =>
          String_of_optional (Transcription.text transcription)
      | None => ""
      end
  | None => ""
  end.

(** The payload the audio block of [onmessage] will schedule, if any. *)
Definition scheduled_audio (message : LiveServerMessage) (s : state)
    : option string :=
  match base64Audio message, outputAudioContextRef s with
  | Some data, Some _ => if bool_decide (data = "") then None else Some data
  | _, _ => None
  end.

(** The next-start time after an event: a message with an interruption
    resets it, a message with audio moves it past the buffer it schedules,
    nothing else touches it. *)
Definition nextStartTimeRef_after (s : state) (e : event) : Q :=
  match e with
  | OnMessage currentTime message =>
      if message_interrupted message then 0%Q
      else match scheduled_audio message s with
           | Some data =>
               number_add (Qmax (nextStartTimeRef s) currentTime)
                          (duration (decodeAudioData data))
           | None => nextStartTimeRef s
           end
  | _ => nextStartTimeRef s
  end.

(** The event starts a session: a click on the button while idle. *)
Definition starts_session (s : state) (e : event) : Prop :=
  e = Click /\ appState s = IDLE.

(** A message that carries an input transcription and nothing else. *)
Definition transcript (txt : option string) : LiveServerMessage :=
  {| serverContent :=
       Some {| modelTurn_data := None; interrupted := false;
               inputTranscription := Some {| Transcription.text := txt |};
               turnComplete := false |};
     toolCall := None |}.

(** What no message changes: the error message, the transcription list
    and the handles of the session, the audio contexts and the gain node. *)
Definition same_session (s s' : state) : Prop :=
  error s' = error s /\ transcriptions s' = transcriptions s
  /\ sessionRef s' = sessionRef s /\ audioContextRef s' = audioContextRef s
  /\ outputAudioContextRef s' = outputAudioContextRef s
  /\ outputNodeRef s' = outputNodeRef s.

(** A call on a buffer source or on the set of sources. *)
Definition playback_call (e : effect) : Prop :=
  match e with
  | SourceStart _ _ _ | SourceStop _ | SourcesClear => True
  | _ => False
  end.

(** A call on the session or on an audio context. *)
Definition session_call (e : effect) : Prop :=
  match e with
  | SessionClose _ | ContextClose _ | SendToolResponse _ _ => True
  | _ => False
  end.

(** The sources started once [tr] is over, [seen] being those started
    before it. *)
Fixpoint seen_after (seen : list handle) (tr : list effect) : list handle :=
  match tr with
  | [] => seen
  | SourceStart h _ _ :: tr => seen_after (h :: seen) tr
  | _ :: tr => seen_after seen tr
  end.

(** Nothing is closed twice, nothing held by a ref is closed, the refs hold
    different objects, and every object named was created. *)
Definition resources_inv (s : state) : Prop :=
  NoDup (closes (trace s) ++ held s)
  /\ Forall (λ h, (h < next_handle s)%nat) (closes (trace s) ++ held s).

(** The calls on sources are in order, every source started was created,
    and the set of playing sources holds started sources only. *)
Definition sources_inv (s : state) : Prop :=
  well_started [] (trace s)
  /\ Forall (λ h, (h < next_handle s)%nat) (started (trace s))
  /\ sourcesRef s ⊆ started (trace s).

(** The string has no hyphen. *)
Fixpoint no_dash (s : string) : Prop :=
  match s with
  | EmptyString => True
  | String c s => c <> "-"%char /\ no_dash s
  end.

(** The events of a list of messages, each with the clock it arrives at. *)
Definition messages (l : list (Q * LiveServerMessage)) : list event :=
  (λ tm, OnMessage tm.1 tm.2) <$> l.

(** The input transcriptions of a list of messages, end to end. *)
Definition transcribed (l : list (Q * LiveServerMessage)) : string :=
  foldr (λ tm rest, message_inputTranscription tm.2 +:+ rest) "" l.

(** The (surah, ayah) pairs a list of messages identifies, in order. *)
Definition identified_keys (l : list (Q * LiveServerMessage))
    : list (string * string) :=
  l ≫= λ tm, (verse_key ∘ FunctionCall.args) <$> identified tm.2.

(** * Properties *)

(** Splits on a test whose subject contains no further test. *)
Ltac split_test :=
  match goal with
  | |- context [match ?x with _ => _ end] =>
      lazymatch x with
      | context [match _ with _ => _ end] => fail
      | _ => destruct x eqn:?
      end
  end.

(** Unfolds a callback and splits on every test it makes. *)
Ltac callback f :=
  unfold f; cbn; repeat (split_test; cbn in *); try done.

(** ** Numbers *)

Lemma ulp_pos q : (0 < ulp q)%Q.
Proof. unfold ulp. by apply Qpower_0_lt. Qed.

Lemma round_half_even_nonneg q : (0 <= q)%Q -> (0 <= round_half_even q)%Z.
Proof.
  destruct q as [n d]. unfold Qle, round_half_even. cbn. intros Hn.
  assert (0 <= n / Z.pos d)%Z by (apply Z.div_pos; lia).
  destruct (2 * (n mod Z.pos d) ?= Z.pos d)%Z; [destruct (Z.even _)|..]; lia.
Qed.

(** The nearest integer is within one half. *)
Lemma round_half_even_near q :
  (Qabs (inject_Z (round_half_even q) - q) <= 1 # 2)%Q.
Proof.
  destruct q as [n d]. apply Qabs_Qle_condition.
  pose proof (Z.div_mod n (Z.pos d)) as Hdiv.
  pose proof (Z.mod_pos_bound n (Z.pos d)) as Hmod.
  unfold round_half_even. cbn [Qnum Qden].
  destruct (Z.compare_spec (2 * (n mod Z.pos d)) (Z.pos d)) as [Heq|Hlt|Hgt];
    [destruct (Z.even _)|..];
    unfold Qle, Qminus, Qplus, Qopp, inject_Z; cbn; split; nia.
Qed.

(** Doubles keep the sign. *)
Lemma round53_nonneg q : (0 <= q)%Q -> (0 <= round53 q)%Q.
Proof.
  intros Hq. unfold round53. destruct (Qeq_bool q 0); [done|].
  rewrite Qred_correct. pose proof (ulp_pos q) as Hulp.
  apply Qmult_le_0_compat; [|by apply Qlt_le_weak].
  assert (0 <= round_half_even (q / ulp q))%Z as Hround.
  { apply round_half_even_nonneg, Qle_shift_div_l; [done|]. lra. }
  unfold Qle. cbn. lia.
Qed.

(** The double nearest to [q] is within half a unit in the last place. *)
Lemma round53_near q : (Qabs (round53 q - q) <= (1 # 2) * ulp q)%Q.
Proof.
  pose proof (ulp_pos q) as Hulp. unfold round53.
  destruct (Qeq_bool q 0) eqn:Hzero.
  - apply Qeq_bool_iff in Hzero.
    assert (Qabs (0 - q) == 0)%Q as Hnone by (by rewrite Hzero).
    rewrite Hnone. lra.
  - rewrite Qred_correct.
    assert (inject_Z (round_half_even (q / ulp q)) * ulp q - q
            == (inject_Z (round_half_even (q / ulp q)) - q / ulp q) * ulp q)%Q
      as Hfactor by (field; lra).
    rewrite Hfactor, Qabs_Qmult, (Qabs_pos (ulp q)) by lra.
    apply Qmult_le_compat_r; [apply round_half_even_near | lra].
Qed.

Lemma number_add_nonneg a b :
  (0 <= a)%Q -> (0 <= b)%Q -> (0 <= number_add a b)%Q.
Proof. intros Ha Hb. apply round53_nonneg. lra. Qed.

(** The sum of doubles is within half a unit in the last place of the
    exact sum. *)
Lemma number_add_near a b :
  (Qabs (number_add a b - (a + b)) <= (1 # 2) * ulp (a + b))%Q.
Proof. apply round53_near. Qed.

(** [0.1 + 0.2] is [0.30000000000000004]. *)
Lemma number_add_rounds :
  number_add (3602879701896397 # 36028797018963968)
             (3602879701896397 # 18014398509481984)
  = (1351079888211149 # 4503599627370496)%Q.
Proof. vm_compute. reflexivity. Qed.

(** ** What [stopSession] leaves and what it sets *)

Lemma stopSession_appState s : appState (stopSession s) = IDLE.
Proof. reflexivity. Qed.

Lemma stopSession_isVerifyingSequence s :
  isVerifyingSequence (stopSession s) = false.
Proof. reflexivity. Qed.

Lemma stopSession_sessionRef s : sessionRef (stopSession s) = None.
Proof. callback stopSession. Qed.

Lemma stopSession_audioContextRef s : audioContextRef (stopSession s) = None.
Proof. callback stopSession. Qed.

Lemma stopSession_outputAudioContextRef s :
  outputAudioContextRef (stopSession s) = None.
Proof. callback stopSession. Qed.

Lemma stopSession_verseHistory s : verseHistory (stopSession s) = verseHistory s.
Proof. callback stopSession. Qed.

Lemma stopSession_error s : error (stopSession s) = error s.
Proof. callback stopSession. Qed.

Lemma stopSession_nextStartTimeRef s :
  nextStartTimeRef (stopSession s) = nextStartTimeRef s.
Proof. callback stopSession. Qed.

Lemma stopSession_sourcesRef s : sourcesRef (stopSession s) = sourcesRef s.
Proof. callback stopSession. Qed.

(** ** Loops *)

Lemma foldl_preserves {A B} (P : A -> Prop) (f : A -> B -> A) (l : list B) (a : A) :
  P a -> (forall a b, P a -> P (f a b)) -> P (foldl f a l).
Proof.
  intros Ha Hf. revert a Ha.
  induction l as [|b l IH]; intros a Ha; cbn; [done|].
  apply IH, Hf, Ha.
Qed.

(** [sourcesRef.current.forEach(s => s.stop())] makes one call per member and
    touches nothing else. *)
Lemma stop_all_trace (l : list handle) (s : state) :
  trace (foldl (λ s source, call (SourceStop source) s) s l)
  = trace s ++ (SourceStop <$> l).
Proof.
  revert s. induction l as [|x l IH]; intros s; cbn.
  - by rewrite app_nil_r.
  - rewrite IH. cbn. by rewrite <- app_assoc.
Qed.

Lemma stop_all_frame {A} (field : state -> A) (l : list handle) (s : state) :
  (forall e s, field (call e s) = field s) ->
  field (foldl (λ s source, call (SourceStop source) s) s l) = field s.
Proof.
  intros Hcall.
  apply (foldl_preserves (λ s', field s' = field s)); [done|].
  intros a b Ha. by rewrite Hcall.
Qed.

(** ** The verse history *)

Lemma addVerse_prefix result prev : prev `prefix_of` addVerse result prev.
Proof.
  unfold addVerse. destruct (existsb _ prev); [done|].
  by apply prefix_app_r.
Qed.

Lemma addVerse_NoDup result prev :
  NoDup (verse_key <$> prev) -> NoDup (verse_key <$> addVerse result prev).
Proof.
  intros Hprev. unfold addVerse.
  destruct (existsb _ prev) eqn:Hdup; [done|].
  rewrite fmap_app. apply NoDup_app. split; [done|]. split.
  - intros k Hk Hin. cbn in Hin. apply list_elem_of_singleton in Hin. subst k.
    apply list_elem_of_fmap in Hk as (v & Hkey & Hv).
    apply list_elem_of_In in Hv.
    assert (Hex : existsb
              (λ v, bool_decide (surahName v = surahName result)
                    && bool_decide (ayahNumber v = ayahNumber result)) prev = true).
    { apply existsb_exists. exists v. split; [done|].
      unfold verse_key in Hkey. injection Hkey as Hs Ha.
      rewrite andb_true_iff, !bool_decide_eq_true. by split. }
    congruence.
  - cbn. apply NoDup_singleton.
Qed.

Lemma onmessage_functionCall_verseHistory_prefix s fc :
  verseHistory s `prefix_of` verseHistory (onmessage_functionCall s fc).
Proof.
  unfold onmessage_functionCall. case_bool_decide; cbn; [|done].
  apply addVerse_prefix.
Qed.

Lemma onmessage_functionCall_verseHistory_NoDup s fc :
  NoDup (verse_key <$> verseHistory s) ->
  NoDup (verse_key <$> verseHistory (onmessage_functionCall s fc)).
Proof.
  intros Hs. unfold onmessage_functionCall. case_bool_decide; cbn; [|done].
  by apply addVerse_NoDup.
Qed.

Lemma onmessage_toolCall_verseHistory_prefix message s :
  verseHistory s `prefix_of` verseHistory (onmessage_toolCall message s).
Proof.
  unfold onmessage_toolCall. destruct (toolCall message) as [fcs|]; [|done].
  apply (foldl_preserves (λ s', verseHistory s `prefix_of` verseHistory s')); [done|].
  intros a fc Ha. etrans; [exact Ha|].
  apply onmessage_functionCall_verseHistory_prefix.
Qed.

Lemma onmessage_toolCall_verseHistory_NoDup message s :
  NoDup (verse_key <$> verseHistory s) ->
  NoDup (verse_key <$> verseHistory (onmessage_toolCall message s)).
Proof.
  intros Hs. unfold onmessage_toolCall.
  destruct (toolCall message) as [fcs|]; [|done].
  apply (foldl_preserves (λ s', NoDup (verse_key <$> verseHistory s'))); [done|].
  intros a fc. apply onmessage_functionCall_verseHistory_NoDup.
Qed.

Lemma onmessage_interrupted_verseHistory message s :
  verseHistory (onmessage_interrupted message s) = verseHistory s.
Proof.
  unfold onmessage_interrupted.
  destruct (serverContent message) as [content|]; [|done].
  destruct (interrupted content); [|done]. cbn.
  by apply (stop_all_frame verseHistory).
Qed.

Lemma onmessage_inputTranscription_verseHistory message s :
  verseHistory (onmessage_inputTranscription message s) = verseHistory s.
Proof. callback onmessage_inputTranscription. Qed.

Lemma onmessage_turnComplete_verseHistory message s :
  verseHistory (onmessage_turnComplete message s) = verseHistory s.
Proof. callback onmessage_turnComplete. Qed.

Lemma run_snoc events e s : run (events ++ [e]) s = step (run events s) e.
Proof. unfold run. by rewrite foldl_app. Qed.

Lemma onmessage_audio_verseHistory currentTime message s :
  verseHistory (onmessage_audio currentTime message s) = verseHistory s.
Proof. callback onmessage_audio. Qed.

Lemma onmessage_verseHistory_prefix currentTime message s :
  verseHistory s `prefix_of` verseHistory (onmessage currentTime message s).
Proof.
  unfold onmessage.
  rewrite onmessage_turnComplete_verseHistory.
  etrans; [|apply onmessage_toolCall_verseHistory_prefix].
  by rewrite onmessage_inputTranscription_verseHistory,
    onmessage_interrupted_verseHistory, onmessage_audio_verseHistory.
Qed.

Lemma onmessage_verseHistory_NoDup currentTime message s :
  NoDup (verse_key <$> verseHistory s) ->
  NoDup (verse_key <$> verseHistory (onmessage currentTime message s)).
Proof.
  intros Hs. unfold onmessage.
  rewrite onmessage_turnComplete_verseHistory.
  apply onmessage_toolCall_verseHistory_NoDup.
  by rewrite onmessage_inputTranscription_verseHistory,
    onmessage_interrupted_verseHistory, onmessage_audio_verseHistory.
Qed.

Lemma step_verseHistory_NoDup s e :
  NoDup (verse_key <$> verseHistory s) ->
  NoDup (verse_key <$> verseHistory (step s e)).
Proof.
  intros Hs. destruct e; unfold step; try done.
  - unfold onClick. destruct (appState s); try done.
    + cbn. apply NoDup_nil_2.
    + by rewrite stopSession_verseHistory.
    + by rewrite stopSession_verseHistory.
  - by apply onmessage_verseHistory_NoDup.
  - unfold onerror. by rewrite stopSession_verseHistory.
Qed.

(** C1. Whatever events the component receives, its verse history never
    holds two entries with the same surah name and the same ayah number:
    an identification is appended only when no entry has both. *)
Theorem verseHistory_never_duplicates (events : list event) :
  NoDup (verse_key <$> verseHistory (run events init)).
Proof.
  induction events as [|e events IH] using rev_ind.
  - cbn. apply NoDup_nil_2.
  - rewrite run_snoc. by apply step_verseHistory_NoDup.
Qed.

(** C7. An entry of the verse history keeps its value and its position
    when a later message, tool calls included, is handled: the history
    before the message is a prefix of the history after it. *)
Theorem verseHistory_entries_immutable
    (currentTime : Q) (message : LiveServerMessage) (s : state)
    (i : nat) (v : VerseIdentification) :
  verseHistory s !! i = Some v ->
  verseHistory (onmessage currentTime message s) !! i = Some v
  /\ verseHistory s `prefix_of` verseHistory (onmessage currentTime message s).
Proof.
  intros Hi. pose proof (onmessage_verseHistory_prefix currentTime message s) as Hp.
  split; [|done]. by eapply prefix_lookup_Some.
Qed.

(** ** The application state *)

Lemma onmessage_toolCall_appState message s :
  appState (onmessage_toolCall message s) = appState s.
Proof.
  unfold onmessage_toolCall. destruct (toolCall message) as [fcs|]; [|done].
  apply (foldl_preserves (λ s', appState s' = appState s)); [done|].
  intros a fc <-. callback onmessage_functionCall.
Qed.

Lemma onmessage_interrupted_appState message s :
  appState (onmessage_interrupted message s) = appState s.
Proof.
  unfold onmessage_interrupted.
  destruct (serverContent message) as [content|]; [|done].
  destruct (interrupted content); [|done]. cbn.
  by apply (stop_all_frame appState).
Qed.

Lemma onmessage_inputTranscription_appState message s :
  appState (onmessage_inputTranscription message s) = appState s.
Proof. callback onmessage_inputTranscription. Qed.

Lemma onmessage_turnComplete_appState message s :
  appState (onmessage_turnComplete message s) = appState s.
Proof. callback onmessage_turnComplete. Qed.

Lemma onmessage_audio_appState currentTime message s :
  appState (onmessage_audio currentTime message s) = appState s.
Proof. callback onmessage_audio. Qed.

Lemma onmessage_appState currentTime message s :
  appState (onmessage currentTime message s) = appState s.
Proof.
  unfold onmessage.
  by rewrite onmessage_turnComplete_appState, onmessage_toolCall_appState,
    onmessage_inputTranscription_appState, onmessage_interrupted_appState,
    onmessage_audio_appState.
Qed.

(** Every event either leaves the application state alone or makes one
    of the changes of [transition]; none of them yields [ERROR]. *)
Lemma step_appState s e :
  appState s <> ERROR ->
  appState (step s e) = appState s
  \/ transition (appState s) e (appState (step s e)).
Proof.
  intros Hs. destruct e; unfold step.
  - unfold onClick. destruct (appState s) eqn:Hstate; try done.
    + right. cbn. constructor.
    + by left.
    + right. rewrite stopSession_appState. constructor.
  - by left.
  - by left.
  - right. cbn. constructor.
  - right. cbn. constructor.
  - left. apply onmessage_appState.
  - right. unfold onerror. rewrite stopSession_appState. constructor.
  - right. cbn. constructor.
  - by left.
Qed.

Lemma transition_not_ERROR a e b : transition a e b -> b <> ERROR.
Proof. by destruct 1. Qed.

Lemma run_appState_not_ERROR (events : list event) :
  appState (run events init) <> ERROR.
Proof.
  induction events as [|e events IH] using rev_ind; [done|].
  rewrite run_snoc.
  destruct (step_appState (run events init) e IH) as [Heq|Htr].
  - by rewrite Heq.
  - by eapply transition_not_ERROR.
Qed.

(** C9. No reachable state has the application state [ERROR]: the
    enumeration declares it, no callback assigns it. *)
Theorem appState_never_ERROR (events : list event) :
  appState (run events init) <> ERROR.
Proof.
  induction events as [|e events IH] using rev_ind.
  - discriminate.
  - rewrite run_snoc.
    destruct (step_appState (run events init) e IH) as [Hsame|Hchange].
    + by rewrite Hsame.
    + destruct Hchange; discriminate.
Qed.

(** C4, as the callbacks have it. From a reachable state every event
    leaves the application state alone or changes it in one of these
    ways: a click when idle starts a session (idle to connecting); the
    open callback sets listening; a click when listening, the close
    callback, a stream error and a failure of [startSession] set idle,
    whatever the state was, so connecting to idle occurs; no change
    ends in the error state. *)
Theorem appState_transitions (events : list event) (e : event) :
  let s := run events init in
  appState (step s e) = appState s
  \/ transition (appState s) e (appState (step s e)).
Proof.
  cbv zeta. apply step_appState.
  apply run_appState_not_ERROR.
Qed.

(** ** The sequential-prediction flag *)

Lemma onmessage_toolCall_isVerifyingSequence message s :
  isVerifyingSequence (onmessage_toolCall message s)
  = if names_identifyQuranVerse message then true else isVerifyingSequence s.
Proof.
  unfold onmessage_toolCall, names_identifyQuranVerse.
  destruct (toolCall message) as [fcs|]; [|done].
  revert s. induction fcs as [|fc fcs IH]; intros s; [done|].
  cbn [foldl existsb]. rewrite IH.
  unfold onmessage_functionCall. case_bool_decide; cbn; [|done].
  by destruct (existsb _ fcs).
Qed.

Lemma onmessage_isVerifyingSequence currentTime message s :
  isVerifyingSequence (onmessage currentTime message s)
  = if names_identifyQuranVerse message then true else isVerifyingSequence s.
Proof.
  unfold onmessage.
  transitivity (isVerifyingSequence
                  (onmessage_toolCall message
                     (onmessage_inputTranscription message
                        (onmessage_interrupted message
                           (onmessage_audio currentTime message s))))).
  { callback onmessage_turnComplete. }
  rewrite onmessage_toolCall_isVerifyingSequence.
  destruct (names_identifyQuranVerse message); [done|].
  transitivity (isVerifyingSequence
                  (onmessage_interrupted message
                     (onmessage_audio currentTime message s))).
  { callback onmessage_inputTranscription. }
  transitivity (isVerifyingSequence (onmessage_audio currentTime message s)).
  - unfold onmessage_interrupted.
    destruct (serverContent message) as [content|]; [|done].
    destruct (interrupted content); [|done]. cbn.
    by apply (stop_all_frame isVerifyingSequence).
  - callback onmessage_audio.
Qed.

(** C6. The flag [isVerifyingSequence] is true after every message with a
    tool call naming [identifyQuranVerse]; it is false after the session
    is stopped ([stopSession], run by a click on the stop button or by a
    stream error) or closes; every other event leaves it as it was. *)
Theorem isVerifyingSequence_changes (s : state) (e : event) :
  isVerifyingSequence (step s e) = isVerifyingSequence_spec s e.
Proof.
  destruct e; unfold step, isVerifyingSequence_spec; try done.
  - unfold onClick, stops_session.
    destruct (appState s); cbn; try done.
  - apply onmessage_isVerifyingSequence.
Qed.

(** ** Teardown *)

Lemma stopSession_torn_down s : torn_down (stopSession s).
Proof.
  unfold torn_down.
  by rewrite stopSession_sessionRef, stopSession_audioContextRef,
    stopSession_outputAudioContextRef, stopSession_appState.
Qed.

Lemma stopSession_closes s :
  (forall session, sessionRef s = Some session ->
     SessionClose session ∈ trace (stopSession s))
  /\ (forall ctx, audioContextRef s = Some ctx ->
       ContextClose ctx ∈ trace (stopSession s))
  /\ (forall ctx, outputAudioContextRef s = Some ctx ->
       ContextClose ctx ∈ trace (stopSession s)).
Proof.
  destruct s as [a ts vh er fl [se|] [ic|] [oc|] gn nx so tb lv nh tr];
    cbn; repeat split; intros x Hx; simplify_eq;
    rewrite ?elem_of_app, ?list_elem_of_singleton; auto 10.
Qed.

(** C10. [stopSession] is idempotent. A call closes the session and the
    two audio contexts that the refs hold and nothing else, and leaves the
    three refs null, the application state idle and the flag false; a
    second call finds the refs null, skips every guarded step and changes
    nothing, the calls made included. *)
Theorem stopSession_idempotent (s : state) :
  stopSession (stopSession s) = stopSession s
  /\ sessionRef (stopSession s) = None
  /\ audioContextRef (stopSession s) = None
  /\ outputAudioContextRef (stopSession s) = None
  /\ appState (stopSession s) = IDLE
  /\ isVerifyingSequence (stopSession s) = false
  /\ closes (trace (stopSession s)) = closes (trace s) ++ held s
  /\ trace (stopSession (stopSession s)) = trace (stopSession s).
Proof.
  destruct s as [a ts vh er fl [se|] [ic|] [oc|] gn nx so tb lv nh tr];
    unfold closes, held; cbn; rewrite ?omap_app, <- ?app_assoc; cbn;
    rewrite ?app_nil_r; by repeat split.
Qed.

(** A stream error shows one message and tears the session down. *)
Lemma onerror_tears_down s :
  error (onerror s)
  = Some "Stream error. This is often caused by network latency."
  /\ torn_down (onerror s).
Proof.
  unfold onerror. split; [|apply stopSession_torn_down].
  by rewrite stopSession_error.
Qed.

(** The [catch] block of [startSession] shows one message and sets the
    state to idle; it leaves the refs as they are. *)
Lemma startSession_catch_frame message s :
  error (startSession_catch message s)
  = Some (or_default message "Failed to start session.")
  /\ appState (startSession_catch message s) = IDLE
  /\ sessionRef (startSession_catch message s) = sessionRef s
  /\ audioContextRef (startSession_catch message s) = audioContextRef s
  /\ outputAudioContextRef (startSession_catch message s)
     = outputAudioContextRef s
  /\ trace (startSession_catch message s) = trace s.
Proof. done. Qed.

(** ** Playback *)

Lemma Set_add_subseteq x l : l ⊆ Set_add x l.
Proof.
  unfold Set_add. case_bool_decide; [done|].
  intros y Hy. apply elem_of_app. by left.
Qed.

Lemma Set_add_elem x l : x ∈ Set_add x l.
Proof.
  unfold Set_add. case_bool_decide; [done|].
  apply elem_of_app. right. by apply list_elem_of_singleton.
Qed.

Lemma Set_delete_elem x y l : y ∈ Set_delete x l <-> y ∈ l /\ y <> x.
Proof. unfold Set_delete. rewrite list_elem_of_filter. tauto. Qed.

(** The audio block of [onmessage] when the message carries audio and the
    output context is there. *)
Lemma onmessage_audio_schedules currentTime message data ctx s :
  base64Audio message = Some data -> data <> "" ->
  outputAudioContextRef s = Some ctx ->
  let start := Qmax (nextStartTimeRef s) currentTime in
  let audioBuffer := decodeAudioData data in
  let s' := onmessage_audio currentTime message s in
  trace s' = trace s ++ [SourceStart (next_handle s) start audioBuffer]
  /\ nextStartTimeRef s' = number_add start (duration audioBuffer)
  /\ sourcesRef s' = Set_add (next_handle s) (sourcesRef s).
Proof.
  intros Hdata Hne Hctx. unfold onmessage_audio.
  rewrite Hdata, Hctx. by rewrite bool_decide_eq_false_2.
Qed.

(** The audio block otherwise. *)
Lemma onmessage_audio_cases currentTime message s :
  onmessage_audio currentTime message s = s
  \/ exists data ctx,
       base64Audio message = Some data /\ data <> ""
       /\ outputAudioContextRef s = Some ctx.
Proof.
  unfold onmessage_audio.
  destruct (base64Audio message) as [data|]; [|by left].
  destruct (outputAudioContextRef s) as [ctx|]; [|by left].
  case_bool_decide; [by left|]. right. by exists data, ctx.
Qed.

Lemma onmessage_interrupted_flushes message content s :
  serverContent message = Some content -> interrupted content = true ->
  let s' := onmessage_interrupted message s in
  trace s' = trace s ++ (SourceStop <$> sourcesRef s) ++ [SourcesClear]
  /\ nextStartTimeRef s' = 0%Q
  /\ sourcesRef s' = [].
Proof.
  intros Hcontent Hint. unfold onmessage_interrupted.
  rewrite Hcontent, Hint. cbn. split; [|done].
  by rewrite stop_all_trace, <- app_assoc.
Qed.

Lemma onmessage_interrupted_cases message s :
  onmessage_interrupted message s = s
  \/ exists content,
       serverContent message = Some content /\ interrupted content = true.
Proof.
  unfold onmessage_interrupted.
  destruct (serverContent message) as [content|]; [|by left].
  destruct (interrupted content) eqn:Hint; [|by left].
  right. by exists content.
Qed.

(** What follows the interruption test in [onmessage] makes neutral calls
    and leaves the queue and the next start time alone. *)
Lemma onmessage_functionCall_playback s fc :
  nextStartTimeRef (onmessage_functionCall s fc) = nextStartTimeRef s
  /\ sourcesRef (onmessage_functionCall s fc) = sourcesRef s
  /\ exists new, trace (onmessage_functionCall s fc) = trace s ++ new
                 /\ Forall neutral new.
Proof.
  unfold onmessage_functionCall. case_bool_decide; cbn.
  - repeat split. eexists. split; [done|]. by repeat constructor.
  - repeat split. exists []. by rewrite app_nil_r.
Qed.

Lemma onmessage_toolCall_playback message s :
  nextStartTimeRef (onmessage_toolCall message s) = nextStartTimeRef s
  /\ sourcesRef (onmessage_toolCall message s) = sourcesRef s
  /\ exists new, trace (onmessage_toolCall message s) = trace s ++ new
                 /\ Forall neutral new.
Proof.
  unfold onmessage_toolCall.
  destruct (toolCall message) as [fcs|].
  - apply (foldl_preserves
             (λ s', nextStartTimeRef s' = nextStartTimeRef s
                    /\ sourcesRef s' = sourcesRef s
                    /\ exists new, trace s' = trace s ++ new
                                   /\ Forall neutral new)).
    + repeat split. exists []. by rewrite app_nil_r.
    + intros a fc (Hn & Hs & new & Ht & Hnew).
      destruct (onmessage_functionCall_playback a fc)
        as (Hn' & Hs' & new' & Ht' & Hnew').
      rewrite Hn', Hs', Ht', Ht. repeat split; try done.
      exists (new ++ new'). rewrite app_assoc. split; [done|].
      by apply Forall_app.
  - repeat split. exists []. by rewrite app_nil_r.
Qed.

Lemma onmessage_inputTranscription_playback message s :
  nextStartTimeRef (onmessage_inputTranscription message s) = nextStartTimeRef s
  /\ sourcesRef (onmessage_inputTranscription message s) = sourcesRef s
  /\ trace (onmessage_inputTranscription message s) = trace s.
Proof. callback onmessage_inputTranscription. Qed.

Lemma onmessage_turnComplete_playback message s :
  nextStartTimeRef (onmessage_turnComplete message s) = nextStartTimeRef s
  /\ sourcesRef (onmessage_turnComplete message s) = sourcesRef s
  /\ trace (onmessage_turnComplete message s) = trace s.
Proof. callback onmessage_turnComplete. Qed.

Lemma onmessage_rest_playback message s :
  let s' := onmessage_turnComplete message
              (onmessage_toolCall message
                 (onmessage_inputTranscription message s)) in
  nextStartTimeRef s' = nextStartTimeRef s
  /\ sourcesRef s' = sourcesRef s
  /\ exists new, trace s' = trace s ++ new /\ Forall neutral new.
Proof.
  cbn.
  destruct (onmessage_turnComplete_playback message
              (onmessage_toolCall message
                 (onmessage_inputTranscription message s)))
    as (-> & -> & ->).
  destruct (onmessage_toolCall_playback message
              (onmessage_inputTranscription message s))
    as (-> & -> & new & -> & Hnew).
  destruct (onmessage_inputTranscription_playback message s)
    as (-> & -> & ->).
  repeat split. by exists new.
Qed.

Lemma onmessage_interrupted_trace_prefix message s :
  trace s `prefix_of` trace (onmessage_interrupted message s).
Proof.
  destruct (onmessage_interrupted_cases message s)
    as [->|(content & Hcontent & Hint)]; [done|].
  destruct (onmessage_interrupted_flushes message content s Hcontent Hint)
    as (-> & _). by apply prefix_app_r.
Qed.

Lemma onmessage_trace_prefix currentTime message s :
  trace (onmessage_audio currentTime message s)
    `prefix_of` trace (onmessage currentTime message s).
Proof.
  unfold onmessage.
  destruct (onmessage_rest_playback message
              (onmessage_interrupted message
                 (onmessage_audio currentTime message s)))
    as (_ & _ & new & -> & _).
  etrans; [apply onmessage_interrupted_trace_prefix|]. by apply prefix_app_r.
Qed.

(** C2. When a message carries audio and the output context is there, the
    buffer decoded from it is started at the maximum of the next-start
    time and the output clock, and the next-start time then becomes that
    start plus the duration of the buffer, the sum being the one of
    JavaScript numbers ([number_add]); it still is when the handler
    returns, unless the same message also carries an interruption. *)
Theorem audio_starts_at_max
    (currentTime : Q) (message : LiveServerMessage) (content : ServerContent)
    (data : string) (ctx : handle) (s : state) :
  serverContent message = Some content ->
  modelTurn_data content = Some data -> data <> "" ->
  outputAudioContextRef s = Some ctx ->
  let start := Qmax (nextStartTimeRef s) currentTime in
  let audioBuffer := decodeAudioData data in
  let scheduled := trace s ++ [SourceStart (next_handle s) start audioBuffer] in
  trace (onmessage_audio currentTime message s) = scheduled
  /\ nextStartTimeRef (onmessage_audio currentTime message s)
     = number_add start (duration audioBuffer)
  /\ scheduled `prefix_of` trace (onmessage currentTime message s)
  /\ (interrupted content = false ->
      nextStartTimeRef (onmessage currentTime message s)
      = number_add start (duration audioBuffer)).
Proof.
  intros Hcontent Hdata Hne Hctx start audioBuffer scheduled.
  subst start audioBuffer scheduled.
  assert (Haudio : base64Audio message = Some data).
  { unfold base64Audio. by rewrite Hcontent. }
  destruct (onmessage_audio_schedules currentTime message data ctx s
              Haudio Hne Hctx) as (Htrace & Hnext & _).
  split; [done|]. split; [done|]. split.
  - rewrite <- Htrace. apply onmessage_trace_prefix.
  - intros Hint. unfold onmessage.
    destruct (onmessage_rest_playback message
                (onmessage_interrupted message
                   (onmessage_audio currentTime message s))) as (-> & _).
    unfold onmessage_interrupted at 1. by rewrite Hcontent, Hint.
Qed.

(** C8. Membership in [sourcesRef] is transient. The [ended] listener of
    a source removes that source and no other. A message that carries an
    interruption stops every source in the set, the one it has just
    started included, empties the set and resets the next-start time to
    zero. *)
Theorem playback_sources_transient :
  (forall (source : handle) (s : state),
     (source ∉ sourcesRef (source_ended source s))
     /\ forall other, other <> source ->
          (other ∈ sourcesRef (source_ended source s) <-> other ∈ sourcesRef s))
  /\ (forall (currentTime : Q) (message : LiveServerMessage)
             (content : ServerContent) (s : state),
        serverContent message = Some content ->
        interrupted content = true ->
        let queued := sourcesRef (onmessage_audio currentTime message s) in
        let s' := onmessage currentTime message s in
        sourcesRef s' = [] /\ nextStartTimeRef s' = 0%Q
        /\ sourcesRef s ⊆ queued
        /\ exists new, trace s' = trace s ++ new /\ all_stopped queued new).
Proof.
  split.
  - intros source s. cbn. split.
    + rewrite Set_delete_elem. tauto.
    + intros other Hother. rewrite Set_delete_elem. tauto.
  - intros currentTime message content s Hcontent Hint queued s'.
    subst queued s'. unfold onmessage.
    destruct (onmessage_rest_playback message
                (onmessage_interrupted message
                   (onmessage_audio currentTime message s)))
      as (-> & -> & rest & -> & _).
    destruct (onmessage_interrupted_flushes message content
                (onmessage_audio currentTime message s) Hcontent Hint)
      as (-> & -> & ->).
    split; [done|]. split; [done|].
    destruct (onmessage_audio_cases currentTime message s)
      as [->|(data & ctx & Hdata & Hne & Hctx)].
    + split; [done|]. eexists. rewrite <- !app_assoc. split; [done|].
      apply Forall_forall. intros source Hsource.
      assert (SourceStop source ∈ SourceStop <$> sourcesRef s)
        by (apply list_elem_of_fmap; by exists source).
      rewrite !elem_of_app. tauto.
    + destruct (onmessage_audio_schedules currentTime message data ctx s
                  Hdata Hne Hctx) as (-> & _ & ->).
      split; [apply Set_add_subseteq|].
      eexists. rewrite <- !app_assoc. split; [done|].
      apply Forall_forall. intros source Hsource.
      assert (SourceStop source
              ∈ SourceStop <$> Set_add (next_handle s) (sourcesRef s))
        by (apply list_elem_of_fmap; by exists source).
      rewrite !elem_of_app. tauto.
Qed.

(** ** The playback schedule *)

Lemma last_end_app prev tr tr' :
  last_end prev (tr ++ tr') = last_end (last_end prev tr) tr'.
Proof.
  revert prev. induction tr as [|e tr IH]; intros prev; [done|].
  destruct e; cbn; apply IH.
Qed.

Lemma no_overlap_app prev tr tr' :
  no_overlap prev (tr ++ tr')
  <-> no_overlap prev tr /\ no_overlap (last_end prev tr) tr'.
Proof.
  revert prev. induction tr as [|e tr IH]; intros prev; cbn; [tauto|].
  destruct e; cbn; rewrite ?IH; tauto.
Qed.

Lemma neutral_last_end prev new :
  Forall neutral new -> last_end prev new = prev.
Proof.
  induction 1 as [|e new He _ IH]; [done|]. by destruct e.
Qed.

Lemma neutral_no_overlap prev new :
  Forall neutral new -> no_overlap prev new.
Proof.
  induction 1 as [|e new He _ IH]; [done|]. by destruct e.
Qed.

Lemma stops_neutral (l : list handle) : Forall neutral (SourceStop <$> l).
Proof. induction l; by constructor. Qed.

Lemma playback_inv_neutral s s' new :
  playback_inv s ->
  trace s' = trace s ++ new -> Forall neutral new ->
  nextStartTimeRef s' = nextStartTimeRef s ->
  playback_inv s'.
Proof.
  intros [Hover Hnext] Htrace Hnew Hsame. unfold playback_inv.
  rewrite Htrace, Hsame, no_overlap_app, last_end_app.
  rewrite (neutral_last_end _ new Hnew).
  split; [|done]. split; [done|]. by apply neutral_no_overlap.
Qed.

Lemma stopSession_calls s :
  exists new, trace (stopSession s) = trace s ++ new /\ Forall neutral new.
Proof.
  destruct s as [a ts vh er fl [se|] [ic|] [oc|] gn nx so tb lv nh tr];
    cbn; rewrite <- ?app_assoc; eexists;
    (split; [try done; by rewrite app_nil_r|]); by repeat constructor.
Qed.

Lemma stopSession_playback_inv s : playback_inv s -> playback_inv (stopSession s).
Proof.
  intros Hs. destruct (stopSession_calls s) as (new & Htrace & Hnew).
  eapply playback_inv_neutral; [done..|].
  apply stopSession_nextStartTimeRef.
Qed.

Lemma onmessage_audio_playback_inv currentTime message s :
  playback_inv s -> playback_inv (onmessage_audio currentTime message s).
Proof.
  intros [Hover Hnext].
  destruct (onmessage_audio_cases currentTime message s)
    as [->|(data & ctx & Hdata & Hne & Hctx)]; [done|].
  destruct (onmessage_audio_schedules currentTime message data ctx s
              Hdata Hne Hctx) as (Htrace & Hnext' & _).
  unfold playback_inv. rewrite Htrace, Hnext', no_overlap_app, last_end_app.
  cbn. split; [|done]. split; [done|]. split; [|done].
  rewrite Hnext. destruct (last_end None (trace s)) as [e|]; [|done].
  cbn. apply Q.le_max_l.
Qed.

Lemma onmessage_interrupted_playback_inv message s :
  playback_inv s -> playback_inv (onmessage_interrupted message s).
Proof.
  intros [Hover Hnext].
  destruct (onmessage_interrupted_cases message s)
    as [->|(content & Hcontent & Hint)]; [done|].
  destruct (onmessage_interrupted_flushes message content s Hcontent Hint)
    as (Htrace & Hnext' & _).
  unfold playback_inv.
  rewrite Htrace, Hnext', !no_overlap_app, !last_end_app.
  cbn. split; [|done]. split; [done|]. split; [|done].
  apply neutral_no_overlap, stops_neutral.
Qed.

Lemma onmessage_playback_inv currentTime message s :
  playback_inv s -> playback_inv (onmessage currentTime message s).
Proof.
  intros Hs. unfold onmessage.
  destruct (onmessage_rest_playback message
              (onmessage_interrupted message
                 (onmessage_audio currentTime message s)))
    as (Hnext & _ & new & Htrace & Hnew).
  eapply playback_inv_neutral; [|done..].
  by apply onmessage_interrupted_playback_inv, onmessage_audio_playback_inv.
Qed.

Lemma step_playback_inv s e : playback_inv s -> playback_inv (step s e).
Proof.
  intros Hs. destruct e; unfold step; try done.
  - unfold onClick. destruct (appState s); try done;
      by apply stopSession_playback_inv.
  - by apply onmessage_playback_inv.
  - unfold onerror. by apply stopSession_playback_inv.
Qed.

Lemma run_playback_inv (events : list event) : playback_inv (run events init).
Proof.
  induction events as [|e events IH] using rev_ind.
  - by split.
  - rewrite run_snoc. by apply step_playback_inv.
Qed.

Lemma schedule_ok_neutral new next added :
  schedule_ok new next -> Forall neutral added ->
  schedule_ok (new ++ added) next.
Proof.
  intros [Hover Hnext] Hadded. unfold schedule_ok.
  rewrite no_overlap_app, last_end_app, (neutral_last_end _ added Hadded).
  split; [|done]. split; [done|]. by apply neutral_no_overlap.
Qed.

Lemma schedule_ok_start new next source currentTime buffer :
  schedule_ok new next ->
  schedule_ok (new ++ [SourceStart source (Qmax next currentTime) buffer])
              (number_add (Qmax next currentTime) (duration buffer)).
Proof.
  intros [Hover Hnext]. unfold schedule_ok.
  rewrite no_overlap_app, last_end_app. cbn.
  split; [|done]. split; [done|]. split; [|done].
  destruct (last_end None new) as [e|]; [|done].
  cbn in Hnext. subst e. apply Q.le_max_l.
Qed.

Lemma schedule_ok_flush new next (sources : list handle) next' :
  schedule_ok new next ->
  schedule_ok (new ++ (SourceStop <$> sources) ++ [SourcesClear]) next'.
Proof.
  intros [Hover Hnext]. unfold schedule_ok.
  rewrite !no_overlap_app, !last_end_app. cbn.
  split; [|done]. split; [done|]. split; [|done].
  apply neutral_no_overlap, stops_neutral.
Qed.

Lemma onmessage_schedule_ok currentTime message s base new :
  trace s = base ++ new -> schedule_ok new (nextStartTimeRef s) ->
  exists new',
    trace (onmessage currentTime message s) = base ++ new'
    /\ schedule_ok new' (nextStartTimeRef (onmessage currentTime message s)).
Proof.
  intros Htrace Hok.
  assert (Haudio : exists new1,
            trace (onmessage_audio currentTime message s) = base ++ new1
            /\ schedule_ok new1
                 (nextStartTimeRef (onmessage_audio currentTime message s))).
  { destruct (onmessage_audio_cases currentTime message s)
      as [->|(data & ctx & Hdata & Hne & Hctx)]; [by exists new|].
    destruct (onmessage_audio_schedules currentTime message data ctx s
                Hdata Hne Hctx) as (-> & -> & _).
    eexists. rewrite Htrace, <- app_assoc. split; [done|].
    by apply schedule_ok_start. }
  destruct Haudio as (new1 & Htrace1 & Hok1).
  assert (Hflush : exists new2,
            trace (onmessage_interrupted message
                     (onmessage_audio currentTime message s)) = base ++ new2
            /\ schedule_ok new2
                 (nextStartTimeRef
                    (onmessage_interrupted message
                       (onmessage_audio currentTime message s)))).
  { destruct (onmessage_interrupted_cases message
                (onmessage_audio currentTime message s))
      as [->|(content & Hcontent & Hint)]; [by exists new1|].
    destruct (onmessage_interrupted_flushes message content
                (onmessage_audio currentTime message s) Hcontent Hint)
      as (-> & -> & _).
    eexists. rewrite Htrace1, <- app_assoc. split; [done|].
    by apply (schedule_ok_flush new1 _ _ 0%Q Hok1). }
  destruct Hflush as (new2 & Htrace2 & Hok2).
  unfold onmessage.
  destruct (onmessage_rest_playback message
              (onmessage_interrupted message
                 (onmessage_audio currentTime message s)))
    as (-> & _ & rest & -> & Hrest).
  eexists. rewrite Htrace2, <- app_assoc. split; [done|].
  by apply schedule_ok_neutral.
Qed.

Lemma step_schedule_ok s e base new :
  trace s = base ++ new -> schedule_ok new (nextStartTimeRef s) ->
  exists new',
    trace (step s e) = base ++ new'
    /\ schedule_ok new' (nextStartTimeRef (step s e)).
Proof.
  intros Htrace Hok.
  assert (Hstop : forall s0,
            trace s0 = trace s -> nextStartTimeRef s0 = nextStartTimeRef s ->
            exists new',
              trace (stopSession s0) = base ++ new'
              /\ schedule_ok new' (nextStartTimeRef (stopSession s0))).
  { intros s0 Ht Hn. destruct (stopSession_calls s0) as (added & -> & Hadded).
    rewrite stopSession_nextStartTimeRef, Ht, Hn, Htrace, <- app_assoc.
    eexists. split; [done|]. by apply schedule_ok_neutral. }
  destruct e; unfold step; try by exists new.
  - unfold onClick. destruct (appState s); try by exists new.
    + by apply Hstop.
    + by apply Hstop.
  - by apply (onmessage_schedule_ok currentTime message s base new).
  - unfold onerror. by apply Hstop.
Qed.

Lemma run_schedule_ok s events :
  exists new,
    trace (run events s) = trace s ++ new
    /\ schedule_ok new (nextStartTimeRef (run events s)).
Proof.
  induction events as [|e events (new & Htrace & Hok)] using rev_ind.
  - exists []. cbn. by rewrite app_nil_r.
  - rewrite run_snoc. by apply (step_schedule_ok _ e (trace s) new).
Qed.

(** * Further properties *)

(** ** The verse history, message by message *)

Lemma addVerse_keys result prev k :
  k ∈ verse_key <$> addVerse result prev
  <-> k ∈ verse_key <$> prev \/ k = verse_key result.
Proof.
  unfold addVerse. destruct (existsb _ prev) eqn:Hdup.
  - split; [by left|]. intros [Hk| ->]; [done|].
    apply existsb_exists in Hdup as (v & Hv & Hsame).
    apply andb_true_iff in Hsame as [Hs Ha].
    apply bool_decide_eq_true in Hs. apply bool_decide_eq_true in Ha.
    apply list_elem_of_fmap. exists v. split.
    + unfold verse_key. by rewrite Hs, Ha.
    + by apply list_elem_of_In.
  - rewrite fmap_app, elem_of_app. cbn. by rewrite list_elem_of_singleton.
Qed.

Lemma addVerse_elem result prev v :
  v ∈ addVerse result prev -> v ∈ prev \/ v = result.
Proof.
  unfold addVerse. destruct (existsb _ prev); [by left|].
  rewrite elem_of_app, list_elem_of_singleton. tauto.
Qed.

Lemma onmessage_toolCall_verseHistory message s :
  verseHistory (onmessage_toolCall message s)
  = foldl (λ history fc, addVerse (FunctionCall.args fc) history)
          (verseHistory s) (identified message).
Proof.
  unfold onmessage_toolCall, identified.
  destruct (toolCall message) as [fcs|]; [|done].
  revert s. induction fcs as [|fc fcs IH]; intros s; [done|].
  cbn [foldl]. rewrite IH, filter_cons.
  unfold onmessage_functionCall. destruct (decide _) as [Hname|Hname].
  - by rewrite bool_decide_eq_true_2.
  - by rewrite bool_decide_eq_false_2.
Qed.

Lemma onmessage_verseHistory currentTime message s :
  verseHistory (onmessage currentTime message s)
  = foldl (λ history fc, addVerse (FunctionCall.args fc) history)
          (verseHistory s) (identified message).
Proof.
  unfold onmessage.
  by rewrite onmessage_turnComplete_verseHistory,
    onmessage_toolCall_verseHistory, onmessage_inputTranscription_verseHistory,
    onmessage_interrupted_verseHistory, onmessage_audio_verseHistory.
Qed.

Lemma addVerse_fold_keys (fcs : list FunctionCall.t) prev k :
  k ∈ verse_key <$>
        foldl (λ history fc, addVerse (FunctionCall.args fc) history) prev fcs
  <-> k ∈ verse_key <$> prev
      \/ k ∈ (verse_key ∘ FunctionCall.args) <$> fcs.
Proof.
  revert prev. induction fcs as [|fc fcs IH]; intros prev; cbn.
  - rewrite elem_of_nil. tauto.
  - rewrite IH, addVerse_keys, elem_of_cons. tauto.
Qed.

Lemma addVerse_fold_elem (fcs : list FunctionCall.t) prev v :
  v ∈ foldl (λ history fc, addVerse (FunctionCall.args fc) history) prev fcs ->
  v ∈ prev \/ exists fc, fc ∈ fcs /\ FunctionCall.args fc = v.
Proof.
  revert prev. induction fcs as [|fc fcs IH]; intros prev; cbn; [by left|].
  intros Hv. destruct (IH _ Hv) as [Hprev|(fc' & Hfc' & Hargs)].
  - destruct (addVerse_elem _ _ _ Hprev) as [?| ->]; [by left|].
    right. exists fc. split; [left|done].
  - right. exists fc'. split; [by right|done].
Qed.

(** X1. After a message is handled, the history holds a verse of some
    (surah, ayah) pair exactly when it held one before or the message
    identifies one: nothing identified is lost and nothing else is added. *)
Theorem verseHistory_keys_after_message
    (currentTime : Q) (message : LiveServerMessage) (s : state)
    (k : string * string) :
  k ∈ verse_key <$> verseHistory (onmessage currentTime message s)
  <-> k ∈ verse_key <$> verseHistory s
      \/ k ∈ (verse_key ∘ FunctionCall.args) <$> identified message.
Proof. rewrite onmessage_verseHistory. apply addVerse_fold_keys. Qed.

Lemma step_verseHistory_cases s e :
  match e with
  | OnMessage currentTime message =>
      verseHistory (step s e)
      = foldl (λ history fc, addVerse (FunctionCall.args fc) history)
              (verseHistory s) (identified message)
  | _ => verseHistory (step s e) = verseHistory s
         \/ (starts_session s e /\ verseHistory (step s e) = [])
  end.
Proof.
  destruct e; unfold step; try by left.
  - unfold onClick. destruct (appState s) eqn:Hstate.
    + right. by repeat split.
    + by left.
    + left. apply stopSession_verseHistory.
    + left. apply stopSession_verseHistory.
  - apply onmessage_verseHistory.
  - left. unfold onerror. by rewrite stopSession_verseHistory.
Qed.

(** X2. The history is cleared by one event only, the click that starts a
    session; every other event keeps the entries it finds, in place, and
    at most appends to them. *)
Theorem verseHistory_kept_or_cleared (s : state) (e : event) :
  verseHistory s `prefix_of` verseHistory (step s e)
  \/ (starts_session s e /\ verseHistory (step s e) = []).
Proof.
  pose proof (step_verseHistory_cases s e) as H. destruct e;
    try (destruct H as [-> | H]; [by left | by right]).
  left. apply onmessage_verseHistory_prefix.
Qed.

(** X3. Every entry of the history of a run was reported by a tool call
    naming [identifyQuranVerse] in a message of that run. *)
Theorem verseHistory_provenance (events : list event) (v : VerseIdentification) :
  v ∈ verseHistory (run events init) ->
  exists currentTime message fc,
    OnMessage currentTime message ∈ events
    /\ fc ∈ identified message /\ FunctionCall.args fc = v.
Proof.
  induction events as [|e events IH] using rev_ind.
  - cbn. by intros ?%elem_of_nil.
  - rewrite run_snoc. intros Hv.
    assert (Hold : v ∈ verseHistory (run events init) ->
                   exists currentTime message fc,
                     OnMessage currentTime message ∈ events ++ [e]
                     /\ fc ∈ identified message /\ FunctionCall.args fc = v).
    { intros Hin. destruct (IH Hin) as (t & m & fc & Hm & Hfc & Hargs).
      exists t, m, fc. split; [|done]. apply elem_of_app. by left. }
    pose proof (step_verseHistory_cases (run events init) e) as H.
    destruct e; try (destruct H as [H|[_ H]]; rewrite H in Hv;
                     [by apply Hold | by apply elem_of_nil in Hv]).
    rewrite H in Hv.
    destruct (addVerse_fold_elem _ _ _ Hv) as [Hin|(fc & Hfc & Hargs)];
      [by apply Hold|].
    exists currentTime, message, fc. split; [|done].
    apply elem_of_app. right. by apply list_elem_of_singleton.
Qed.

Lemma addVerse_fold_keys_onmessage currentTime message s k :
  k ∈ verse_key <$> verseHistory (onmessage currentTime message s)
  <-> k ∈ verse_key <$> verseHistory s
      \/ k ∈ (verse_key ∘ FunctionCall.args) <$> identified message.
Proof. rewrite onmessage_verseHistory. apply addVerse_fold_keys. Qed.

(** ** What messages leave alone *)

Lemma same_session_refl s : same_session s s.
Proof. by repeat split. Qed.

Lemma same_session_trans s1 s2 s3 :
  same_session s1 s2 -> same_session s2 s3 -> same_session s1 s3.
Proof.
  intros (? & ? & ? & ? & ? & ?) (? & ? & ? & ? & ? & ?).
  repeat split; congruence.
Qed.

Lemma onmessage_audio_same_session currentTime message s :
  same_session s (onmessage_audio currentTime message s).
Proof. unfold same_session. callback onmessage_audio. Qed.

Lemma onmessage_interrupted_same_session message s :
  same_session s (onmessage_interrupted message s).
Proof.
  destruct (onmessage_interrupted_cases message s)
    as [->|(content & Hcontent & Hint)]; [apply same_session_refl|].
  unfold same_session, onmessage_interrupted. rewrite Hcontent, Hint. cbn.
  by rewrite (stop_all_frame error), (stop_all_frame transcriptions),
    (stop_all_frame sessionRef), (stop_all_frame audioContextRef),
    (stop_all_frame outputAudioContextRef), (stop_all_frame outputNodeRef).
Qed.

Lemma onmessage_inputTranscription_same_session message s :
  same_session s (onmessage_inputTranscription message s).
Proof. unfold same_session. callback onmessage_inputTranscription. Qed.

Lemma onmessage_turnComplete_same_session message s :
  same_session s (onmessage_turnComplete message s).
Proof. unfold same_session. callback onmessage_turnComplete. Qed.

Lemma onmessage_toolCall_same_session message s :
  same_session s (onmessage_toolCall message s).
Proof.
  unfold onmessage_toolCall. destruct (toolCall message) as [fcs|];
    [|apply same_session_refl].
  apply (foldl_preserves (same_session s)); [apply same_session_refl|].
  intros a fc Ha. eapply same_session_trans; [exact Ha|].
  unfold same_session. callback onmessage_functionCall.
Qed.

Lemma onmessage_same_session currentTime message s :
  same_session s (onmessage currentTime message s).
Proof.
  unfold onmessage.
  eapply same_session_trans; [apply onmessage_audio_same_session|].
  eapply same_session_trans; [apply onmessage_interrupted_same_session|].
  eapply same_session_trans; [apply onmessage_inputTranscription_same_session|].
  eapply same_session_trans; [apply onmessage_toolCall_same_session|].
  apply onmessage_turnComplete_same_session.
Qed.

(** ** The playback schedule, within a context *)

(** No event but the creation of the contexts puts a context into
    [outputAudioContextRef]. *)
Lemma step_outputAudioContextRef s e :
  e <> GetUserMediaResolved ->
  outputAudioContextRef (step s e) = outputAudioContextRef s
  \/ outputAudioContextRef (step s e) = None.
Proof.
  intros He. destruct e; unfold step; try done; try by left.
  - unfold onClick. destruct (appState s); try by left.
    + right. apply stopSession_outputAudioContextRef.
    + right. apply stopSession_outputAudioContextRef.
  - left. by destruct (onmessage_same_session currentTime message s)
      as (_ & _ & _ & _ & -> & _).
  - right. unfold onerror. apply stopSession_outputAudioContextRef.
Qed.

Lemma run_outputAudioContextRef s events :
  GetUserMediaResolved ∉ events ->
  outputAudioContextRef (run events s) = outputAudioContextRef s
  \/ outputAudioContextRef (run events s) = None.
Proof.
  induction events as [|e events IH] using rev_ind; intros Hno; [by left|].
  rewrite run_snoc. apply not_elem_of_app in Hno as [Hno He].
  apply not_elem_of_cons in He as [He _].
  destruct (step_outputAudioContextRef (run events s) e) as [Hsame|Hnone];
    [by intros ->|..].
  - rewrite Hsame. by apply IH.
  - by right.
Qed.

(** C3, as the callbacks have it. The end recorded for a buffer is the
    next-start time stored when it is scheduled: the double nearest to its
    start plus its duration. Over events that create no new output
    context, so that every buffer started is on the one context:
    - no buffer starts before the end recorded for the buffer started
      before it, unless an interruption flushed the queue in between;
    - a buffer that follows another with no interruption between them
      starts at the maximum of the output clock and the end recorded for
      that other buffer: at that end, without a gap, when the clock has not
      passed it, and at the clock otherwise. *)
Theorem playback_schedule (s : state) (events : list event) :
  GetUserMediaResolved ∉ events ->
  exists new,
    trace (run events s) = trace s ++ new
    /\ no_overlap None new
    /\ (outputAudioContextRef (run events s) = outputAudioContextRef s
        \/ outputAudioContextRef (run events s) = None)
    /\ forall (currentTime : Q) (message : LiveServerMessage)
              (data : string) (ctx : handle) (e : Q),
         base64Audio message = Some data -> data <> "" ->
         outputAudioContextRef (run events s) = Some ctx ->
         last_end None new = Some e ->
         outputAudioContextRef s = Some ctx
         /\ trace (onmessage_audio currentTime message (run events s))
            = trace (run events s)
              ++ [SourceStart (next_handle (run events s))
                    (Qmax e currentTime) (decodeAudioData data)]
         /\ (currentTime <= e -> Qmax e currentTime == e)%Q
         /\ (e <= currentTime -> Qmax e currentTime == currentTime)%Q.
Proof.
  intros Hno.
  destruct (run_schedule_ok s events) as (new & Htrace & Hover & Hnext).
  pose proof (run_outputAudioContextRef s events Hno) as Hsame.
  exists new. split; [done|]. split; [done|]. split; [done|].
  intros currentTime message data ctx e Hdata Hne Hctx Hlast.
  rewrite Hlast in Hnext. cbn in Hnext.
  destruct (onmessage_audio_schedules currentTime message data ctx
              (run events s) Hdata Hne Hctx) as (Hstart & _).
  rewrite Hnext in Hstart. split; [|split; [done|split]].
  - destruct Hsame as [Hsame|Hsame]; congruence.
  - intros Hle. by apply Q.max_l.
  - intros Hle. by apply Q.max_r.
Qed.

(** ** The last verse *)

Lemma onmessage_toolCall_lastVerseRef message s :
  lastVerseRef (onmessage_toolCall message s)
  = match last (identified message) with
    | Some fc => Some (verse_key (FunctionCall.args fc))
    | None => lastVerseRef s
    end.
Proof.
  unfold onmessage_toolCall, identified.
  destruct (toolCall message) as [fcs|]; [|done].
  revert s. induction fcs as [|fc fcs IH]; intros s; [done|].
  cbn [foldl]. rewrite IH, filter_cons.
  unfold onmessage_functionCall. destruct (decide _) as [Hname|Hname].
  - rewrite bool_decide_eq_true_2 by done. rewrite last_cons.
    by destruct (last (filter _ fcs)).
  - by rewrite bool_decide_eq_false_2.
Qed.

Lemma onmessage_lastVerseRef currentTime message s :
  lastVerseRef (onmessage currentTime message s)
  = match last (identified message) with
    | Some fc => Some (verse_key (FunctionCall.args fc))
    | None => lastVerseRef s
    end.
Proof.
  unfold onmessage.
  transitivity (lastVerseRef
                  (onmessage_toolCall message
                     (onmessage_inputTranscription message
                        (onmessage_interrupted message
                           (onmessage_audio currentTime message s))))).
  { callback onmessage_turnComplete. }
  rewrite onmessage_toolCall_lastVerseRef.
  destruct (last (identified message)); [done|].
  transitivity (lastVerseRef
                  (onmessage_interrupted message
                     (onmessage_audio currentTime message s))).
  { callback onmessage_inputTranscription. }
  transitivity (lastVerseRef (onmessage_audio currentTime message s)).
  - unfold onmessage_interrupted.
    destruct (serverContent message) as [content|]; [|done].
    destruct (interrupted content); [|done]. cbn.
    by apply (stop_all_frame lastVerseRef).
  - callback onmessage_audio.
Qed.

(** X4. After a message, [lastVerseRef] names the verse of the last tool
    call of the message that names [identifyQuranVerse]; a message without
    such a call leaves it as it was. *)
Theorem lastVerseRef_tracks_latest
    (currentTime : Q) (message : LiveServerMessage) (s : state) :
  lastVerseRef (step s (OnMessage currentTime message))
  = match last (identified message) with
    | Some fc => Some (surahName (FunctionCall.args fc),
                       ayahNumber (FunctionCall.args fc))
    | None => lastVerseRef s
    end.
Proof. cbn [step]. apply onmessage_lastVerseRef. Qed.

Lemma step_lastVerseRef_in_history s e :
  from_option (λ k, k ∈ verse_key <$> verseHistory s) True (lastVerseRef s) ->
  from_option (λ k, k ∈ verse_key <$> verseHistory (step s e)) True
              (lastVerseRef (step s e)).
Proof.
  intros Hs. destruct e; unfold step; try done.
  - unfold onClick. destruct (appState s); try done.
    + by rewrite stopSession_verseHistory;
        replace (lastVerseRef (stopSession s)) with (lastVerseRef s)
          by callback stopSession.
    + by rewrite stopSession_verseHistory;
        replace (lastVerseRef (stopSession s)) with (lastVerseRef s)
          by callback stopSession.
  - rewrite onmessage_lastVerseRef.
    destruct (last (identified message)) as [fc|] eqn:Hlast.
    + cbn. apply addVerse_fold_keys_onmessage. right.
      apply list_elem_of_fmap. exists fc. split; [done|].
      apply last_Some in Hlast as [l' ->].
      apply elem_of_app. right. by apply list_elem_of_singleton.
    + destruct (lastVerseRef s) as [k|]; [|done]. cbn in *.
      apply addVerse_fold_keys_onmessage. by left.
  - unfold onerror.
    by rewrite stopSession_verseHistory;
      replace (lastVerseRef (stopSession _)) with (lastVerseRef s)
        by callback stopSession.
Qed.

(** X5. In every reachable state [lastVerseRef] is null or names a verse
    that is in the history. *)
Theorem lastVerseRef_in_history (events : list event) :
  match lastVerseRef (run events init) with
  | Some k => k ∈ verse_key <$> verseHistory (run events init)
  | None => True
  end.
Proof.
  change (from_option (λ k, k ∈ verse_key <$> verseHistory (run events init))
            True (lastVerseRef (run events init))).
  induction events as [|e events IH] using rev_ind; [done|].
  rewrite run_snoc. by apply step_lastVerseRef_in_history.
Qed.

(** ** The calls of a message *)

Lemma onmessage_toolCall_trace message s :
  trace (onmessage_toolCall message s)
  = trace s ++ (toolResponse <$> identified message).
Proof.
  unfold onmessage_toolCall, identified.
  destruct (toolCall message) as [fcs|]; [|by rewrite app_nil_r].
  revert s. induction fcs as [|fc fcs IH]; intros s; cbn [foldl].
  - by rewrite app_nil_r.
  - rewrite IH, filter_cons. unfold onmessage_functionCall.
    destruct (decide _) as [Hname|Hname].
    + rewrite bool_decide_eq_true_2 by done. cbn. by rewrite <- app_assoc.
    + by rewrite bool_decide_eq_false_2.
Qed.

Lemma onmessage_playback_calls currentTime message s :
  exists playback,
    trace (onmessage_interrupted message (onmessage_audio currentTime message s))
    = trace s ++ playback
    /\ Forall playback_call playback.
Proof.
  assert (Haudio : exists new, trace (onmessage_audio currentTime message s)
                               = trace s ++ new /\ Forall playback_call new).
  { destruct (onmessage_audio_cases currentTime message s)
      as [->|(data & ctx & Hdata & Hne & Hctx)].
    - exists []. by rewrite app_nil_r.
    - destruct (onmessage_audio_schedules currentTime message data ctx s
                  Hdata Hne Hctx) as (-> & _).
      eexists. split; [done|]. by repeat constructor. }
  destruct Haudio as (new & Hnew & Hcalls).
  destruct (onmessage_interrupted_cases message
              (onmessage_audio currentTime message s))
    as [->|(content & Hcontent & Hint)]; [by exists new|].
  destruct (onmessage_interrupted_flushes message content
              (onmessage_audio currentTime message s) Hcontent Hint)
    as (-> & _).
  rewrite Hnew, <- app_assoc. eexists. split; [done|].
  apply Forall_app. split; [done|]. apply Forall_app. split.
  - apply Forall_fmap, Forall_true. done.
  - by repeat constructor.
Qed.

Lemma onmessage_trace currentTime message s :
  exists playback,
    trace (onmessage currentTime message s)
    = trace s ++ playback ++ (toolResponse <$> identified message)
    /\ Forall playback_call playback.
Proof.
  destruct (onmessage_playback_calls currentTime message s)
    as (playback & Htrace & Hcalls).
  exists playback. split; [|done]. unfold onmessage.
  destruct (onmessage_turnComplete_playback message
              (onmessage_toolCall message
                 (onmessage_inputTranscription message
                    (onmessage_interrupted message
                       (onmessage_audio currentTime message s)))))
    as (_ & _ & ->).
  rewrite onmessage_toolCall_trace.
  destruct (onmessage_inputTranscription_playback message
              (onmessage_interrupted message
                 (onmessage_audio currentTime message s))) as (_ & _ & ->).
  by rewrite Htrace, <- app_assoc.
Qed.

Lemma playback_call_responses l : Forall playback_call l -> responses l = [].
Proof. induction 1 as [|e l He _ IH]; [done|]. by destruct e. Qed.

Lemma playback_call_closes l : Forall playback_call l -> closes l = [].
Proof. induction 1 as [|e l He _ IH]; [done|]. by destruct e. Qed.

Lemma toolResponse_closes (fcs : list FunctionCall.t) :
  closes (toolResponse <$> fcs) = [].
Proof. by induction fcs. Qed.

Lemma toolResponse_responses (fcs : list FunctionCall.t) :
  responses (toolResponse <$> fcs) = toolResponse <$> fcs.
Proof.
  induction fcs as [|fc fcs IH]; [done|].
  unfold responses in *. cbn. by rewrite IH.
Qed.

(** X6. A message is answered with one tool response for each of its tool
    calls that names [identifyQuranVerse], in their order and with their
    ids, a verse already in the history included; a tool call of another
    name gets no response, and a message makes no other call on the
    session. *)
Theorem tool_calls_answered_once
    (currentTime : Q) (message : LiveServerMessage) (s : state) :
  exists new,
    trace (onmessage currentTime message s) = trace s ++ new
    /\ responses new = toolResponse <$> identified message
    /\ closes new = [].
Proof.
  destruct (onmessage_trace currentTime message s)
    as (playback & Htrace & Hcalls).
  eexists. split; [exact Htrace|]. unfold responses, closes.
  rewrite !omap_app. fold (responses playback) (closes playback).
  fold (responses (toolResponse <$> identified message)).
  fold (closes (toolResponse <$> identified message)).
  by rewrite playback_call_responses, playback_call_closes,
    toolResponse_responses, toolResponse_closes.
Qed.

(** ** Objects and the calls on them *)

Lemma onmessage_audio_next_handle currentTime message s :
  (next_handle s <= next_handle (onmessage_audio currentTime message s))%nat.
Proof. callback onmessage_audio; lia. Qed.

Lemma onmessage_interrupted_next_handle message s :
  next_handle (onmessage_interrupted message s) = next_handle s.
Proof.
  unfold onmessage_interrupted.
  destruct (serverContent message) as [content|]; [|done].
  destruct (interrupted content); [|done]. cbn.
  by apply (stop_all_frame next_handle).
Qed.

Lemma onmessage_toolCall_next_handle message s :
  next_handle (onmessage_toolCall message s) = next_handle s.
Proof.
  unfold onmessage_toolCall. destruct (toolCall message) as [fcs|]; [|done].
  apply (foldl_preserves (λ s', next_handle s' = next_handle s)); [done|].
  intros a fc <-. callback onmessage_functionCall.
Qed.

Lemma onmessage_inputTranscription_next_handle message s :
  next_handle (onmessage_inputTranscription message s) = next_handle s.
Proof. callback onmessage_inputTranscription. Qed.

Lemma onmessage_turnComplete_next_handle message s :
  next_handle (onmessage_turnComplete message s) = next_handle s.
Proof. callback onmessage_turnComplete. Qed.

Lemma onmessage_next_handle currentTime message s :
  (next_handle s <= next_handle (onmessage currentTime message s))%nat.
Proof.
  unfold onmessage.
  rewrite onmessage_turnComplete_next_handle, onmessage_toolCall_next_handle,
    onmessage_inputTranscription_next_handle, onmessage_interrupted_next_handle.
  apply onmessage_audio_next_handle.
Qed.

Lemma onmessage_held currentTime message s :
  held (onmessage currentTime message s) = held s.
Proof.
  destruct (onmessage_same_session currentTime message s)
    as (_ & _ & Hsession & Hinput & Houtput & _).
  unfold held. by rewrite Hsession, Hinput, Houtput.
Qed.

Lemma stopSession_resources s :
  closes (trace (stopSession s)) = closes (trace s) ++ held s
  /\ held (stopSession s) = []
  /\ next_handle (stopSession s) = next_handle s.
Proof.
  destruct s as [a ts vh er fl [se|] [ic|] [oc|] gn nx so tb lv nh tr];
    unfold closes, held; cbn; rewrite ?omap_app, <- ?app_assoc; cbn;
    by rewrite ?app_nil_r.
Qed.

Lemma resources_inv_same s s' :
  closes (trace s') ++ held s' = closes (trace s) ++ held s ->
  (next_handle s <= next_handle s')%nat ->
  resources_inv s -> resources_inv s'.
Proof.
  intros Heq Hle [Hnodup Hlt]. unfold resources_inv. rewrite Heq.
  split; [done|]. eapply Forall_impl; [exact Hlt|]. cbn. lia.
Qed.

Lemma stopSession_resources_inv s : resources_inv s -> resources_inv (stopSession s).
Proof.
  destruct (stopSession_resources s) as (Hcloses & Hheld & Hnext).
  apply resources_inv_same; [|lia]. by rewrite Hcloses, Hheld, app_nil_r.
Qed.

Lemma closes_app tr tr' : closes (tr ++ tr') = closes tr ++ closes tr'.
Proof. apply omap_app. Qed.

Lemma onmessage_resources_inv currentTime message s :
  resources_inv s -> resources_inv (onmessage currentTime message s).
Proof.
  apply resources_inv_same; [|apply onmessage_next_handle].
  destruct (onmessage_trace currentTime message s) as (playback & -> & Hcalls).
  rewrite onmessage_held, !closes_app.
  rewrite (playback_call_closes playback) by done.
  by rewrite toolResponse_closes, !app_nil_r.
Qed.

Lemma startSession_media_resources_inv s :
  resources_inv s -> resources_inv (startSession_media s).
Proof.
  intros [Hnodup Hlt]. unfold resources_inv, held in *. cbn.
  apply NoDup_app in Hnodup as (Hcloses & Hdisjoint & Hheld).
  apply Forall_app in Hlt as [Hlt_closes Hlt_held].
  apply NoDup_app in Hheld as (Hsession & _ & _).
  apply Forall_app in Hlt_held as [Hlt_session _].
  assert (Hfresh : forall h, (h < next_handle s)%nat ->
                     h ∉ [next_handle s; S (next_handle s)]).
  { intros h Hh Hin. apply elem_of_cons in Hin as [->|Hin]; [lia|].
    apply list_elem_of_singleton in Hin. lia. }
  split.
  - apply NoDup_app. split; [done|]. split.
    + intros h Hh Hin. apply elem_of_app in Hin as [Hin|Hin].
      * apply (Hdisjoint h Hh). apply elem_of_app. by left.
      * rewrite Forall_forall in Hlt_closes. by apply (Hfresh h); [apply Hlt_closes|].
    + apply NoDup_app. split; [done|]. split.
      * intros h Hh. rewrite Forall_forall in Hlt_session.
        by apply Hfresh, Hlt_session.
      * apply NoDup_cons. split; [|apply NoDup_singleton].
        intros Hin%list_elem_of_singleton. lia.
  - rewrite !Forall_app. repeat split.
    + eapply Forall_impl; [exact Hlt_closes|]. cbn. lia.
    + eapply Forall_impl; [exact Hlt_session|]. cbn. lia.
    + repeat constructor; lia.
Qed.

Lemma startSession_connected_resources_inv s :
  resources_inv s -> resources_inv (startSession_connected s).
Proof.
  intros [Hnodup Hlt]. unfold resources_inv, held in *. cbn.
  apply NoDup_app in Hnodup as (Hcloses & Hdisjoint & Hheld).
  apply Forall_app in Hlt as [Hlt_closes Hlt_held].
  apply NoDup_app in Hheld as (_ & _ & Hctx).
  apply Forall_app in Hlt_held as [_ Hlt_ctx].
  rewrite Forall_forall in Hlt_closes. rewrite Forall_forall in Hlt_ctx.
  split.
  - apply NoDup_app. split; [done|]. split.
    + intros h Hh Hin. apply elem_of_cons in Hin as [->|Hin].
      * specialize (Hlt_closes _ Hh). lia.
      * apply (Hdisjoint h Hh). apply elem_of_app. by right.
    + apply NoDup_cons. split; [|done].
      intros Hin. specialize (Hlt_ctx _ Hin). lia.
  - rewrite Forall_app. split.
    + apply Forall_forall. intros h Hh. specialize (Hlt_closes _ Hh). lia.
    + constructor; [lia|].
      apply Forall_forall. intros h Hh. specialize (Hlt_ctx _ Hh). lia.
Qed.

Lemma step_resources_inv s e : resources_inv s -> resources_inv (step s e).
Proof.
  intros Hs. destruct e; unfold step; try done.
  - unfold onClick. destruct (appState s); try done;
      by apply stopSession_resources_inv.
  - by apply startSession_media_resources_inv.
  - by apply startSession_connected_resources_inv.
  - by apply onmessage_resources_inv.
  - unfold onerror. by apply (stopSession_resources_inv (setError _ s)).
Qed.

(** X7. In no run is a session or an audio context closed twice: a ref is
    cleared when its object is closed, and every later teardown finds it
    null. *)
Theorem nothing_closed_twice (events : list event) :
  NoDup (closes (trace (run events init))).
Proof.
  assert (Hinv : resources_inv (run events init)).
  { induction events as [|e events IH] using rev_ind.
    - split; [apply NoDup_nil_2 | apply Forall_nil_2].
    - rewrite run_snoc. by apply step_resources_inv. }
  destruct Hinv as [Hnodup _]. by apply NoDup_app in Hnodup as (? & _).
Qed.

(** ** Sources *)

Lemma started_app tr tr' : started (tr ++ tr') = started tr ++ started tr'.
Proof. apply omap_app. Qed.

Lemma seen_after_elem h seen tr :
  h ∈ seen_after seen tr <-> h ∈ seen \/ h ∈ started tr.
Proof.
  revert seen. induction tr as [|e tr IH]; intros seen; cbn.
  - rewrite elem_of_nil. tauto.
  - destruct e; cbn; rewrite IH; try tauto.
    rewrite !elem_of_cons. tauto.
Qed.

Lemma seen_after_app seen tr tr' :
  seen_after seen (tr ++ tr') = seen_after (seen_after seen tr) tr'.
Proof.
  revert seen. induction tr as [|e tr IH]; intros seen; [done|].
  destruct e; cbn; apply IH.
Qed.

Lemma well_started_app seen tr tr' :
  well_started seen (tr ++ tr')
  <-> well_started seen tr /\ well_started (seen_after seen tr) tr'.
Proof.
  revert seen. induction tr as [|e tr IH]; intros seen; cbn; [tauto|].
  destruct e; cbn; rewrite ?IH; tauto.
Qed.

Lemma session_calls_sources seen new :
  Forall session_call new ->
  started new = [] /\ well_started seen new.
Proof.
  induction 1 as [|e new He _ [IH1 IH2]]; [done|]. by destruct e.
Qed.

Lemma stops_sources seen (l : list handle) :
  l ⊆ seen ->
  started (SourceStop <$> l) = [] /\ well_started seen (SourceStop <$> l).
Proof.
  induction l as [|h l IH]; intros Hl; [done|].
  destruct IH as [IH1 IH2].
  { intros x Hx. apply Hl. by right. }
  cbn. repeat split; try done. apply Hl. by left.
Qed.

Lemma sources_inv_session_calls s s' new :
  trace s' = trace s ++ new -> Forall session_call new ->
  (next_handle s <= next_handle s')%nat ->
  sourcesRef s' ⊆ sourcesRef s ->
  sources_inv s -> sources_inv s'.
Proof.
  intros Htrace Hnew Hle Hsub (Hwell & Hlt & Hsrc).
  destruct (session_calls_sources (seen_after [] (trace s)) new Hnew)
    as [Hstarted Hwell'].
  unfold sources_inv.
  rewrite Htrace, well_started_app, started_app, Hstarted, app_nil_r.
  repeat split; try done.
  - eapply Forall_impl; [exact Hlt|]. cbn. lia.
  - by etrans.
Qed.

Lemma stopSession_session_calls s :
  exists new, trace (stopSession s) = trace s ++ new /\ Forall session_call new.
Proof.
  destruct s as [a ts vh er fl [se|] [ic|] [oc|] gn nx so tb lv nh tr];
    cbn; rewrite <- ?app_assoc; eexists;
    (split; [try done; by rewrite app_nil_r|]); by repeat constructor.
Qed.

Lemma stopSession_sources_inv s : sources_inv s -> sources_inv (stopSession s).
Proof.
  destruct (stopSession_session_calls s) as (new & Htrace & Hnew).
  destruct (stopSession_resources s) as (_ & _ & Hnext).
  apply (sources_inv_session_calls s _ new); [done|done|lia|].
  by rewrite stopSession_sourcesRef.
Qed.

Lemma onmessage_audio_sources_inv currentTime message s :
  sources_inv s -> sources_inv (onmessage_audio currentTime message s).
Proof.
  intros (Hwell & Hlt & Hsrc).
  destruct (onmessage_audio_cases currentTime message s)
    as [->|(data & ctx & Hdata & Hne & Hctx)]; [done|].
  destruct (onmessage_audio_schedules currentTime message data ctx s
              Hdata Hne Hctx) as (Htrace & _ & Hsources).
  assert (Hnext : next_handle (onmessage_audio currentTime message s)
                  = S (next_handle s)).
  { unfold onmessage_audio. rewrite Hdata, Hctx.
    by rewrite bool_decide_eq_false_2. }
  unfold sources_inv.
  rewrite Htrace, Hsources, Hnext, well_started_app, started_app. cbn.
  rewrite Forall_forall in Hlt. repeat split; try done.
  - intros Hin. apply seen_after_elem in Hin as [Hin|Hin].
    + by apply elem_of_nil in Hin.
    + specialize (Hlt _ Hin). lia.
  - apply Forall_app. split.
    + apply Forall_forall. intros h Hh. specialize (Hlt _ Hh). lia.
    + repeat constructor.
  - intros h Hh. unfold Set_add in Hh. apply elem_of_app.
    case_bool_decide; [left; by apply Hsrc|].
    apply elem_of_app in Hh as [Hh|Hh]; [left; by apply Hsrc | by right].
Qed.

Lemma onmessage_interrupted_sources_inv message s :
  sources_inv s -> sources_inv (onmessage_interrupted message s).
Proof.
  intros (Hwell & Hlt & Hsrc).
  destruct (onmessage_interrupted_cases message s)
    as [->|(content & Hcontent & Hint)]; [done|].
  destruct (onmessage_interrupted_flushes message content s Hcontent Hint)
    as (Htrace & _ & Hsources).
  destruct (stops_sources (seen_after [] (trace s)) (sourcesRef s))
    as [Hstarted Hstops].
  { intros h Hh. apply seen_after_elem. right. by apply Hsrc. }
  unfold sources_inv.
  rewrite Htrace, Hsources, onmessage_interrupted_next_handle.
  rewrite !well_started_app, !started_app, Hstarted. cbn.
  rewrite !app_nil_r. repeat split; try done.
  by intros h Hh%elem_of_nil.
Qed.

Lemma onmessage_sources_inv currentTime message s :
  sources_inv s -> sources_inv (onmessage currentTime message s).
Proof.
  intros Hs. unfold onmessage.
  pose (s2 := onmessage_interrupted message
                (onmessage_audio currentTime message s)).
  assert (Hs2 : sources_inv s2)
    by by apply onmessage_interrupted_sources_inv, onmessage_audio_sources_inv.
  fold s2.
  destruct (onmessage_turnComplete_playback message
              (onmessage_toolCall message
                 (onmessage_inputTranscription message s2)))
    as (_ & Hsrc3 & Htr3).
  destruct (onmessage_toolCall_playback message
              (onmessage_inputTranscription message s2))
    as (_ & Hsrc2 & _).
  destruct (onmessage_inputTranscription_playback message s2)
    as (_ & Hsrc1 & Htr1).
  apply (sources_inv_session_calls s2 _ (toolResponse <$> identified message)).
  - by rewrite Htr3, onmessage_toolCall_trace, Htr1.
  - apply Forall_fmap, Forall_true. done.
  - by rewrite onmessage_turnComplete_next_handle,
      onmessage_toolCall_next_handle, onmessage_inputTranscription_next_handle.
  - by rewrite Hsrc3, Hsrc2, Hsrc1.
  - done.
Qed.

Lemma step_sources_inv s e : sources_inv s -> sources_inv (step s e).
Proof.
  intros Hs. destruct e; unfold step.
  - unfold onClick. destruct (appState s); try done;
      by apply stopSession_sources_inv.
  - apply (sources_inv_session_calls s _ []); cbn;
      [by rewrite app_nil_r | done | lia | done | done].
  - apply (sources_inv_session_calls s _ []); cbn;
      [by rewrite app_nil_r | done | lia | done | done].
  - done.
  - done.
  - by apply onmessage_sources_inv.
  - unfold onerror. by apply (stopSession_sources_inv (setError _ s)).
  - done.
  - apply (sources_inv_session_calls s _ []); cbn;
      [by rewrite app_nil_r | done | lia | | done].
    intros h Hh. by apply Set_delete_elem in Hh as [? _].
Qed.

(** X8. In every run each buffer source is started once, [stop] is called
    only on sources that were started before, and the set of playing
    sources holds started sources only. *)
Theorem sources_started_before_stopped (events : list event) :
  well_started [] (trace (run events init))
  /\ sourcesRef (run events init) ⊆ started (trace (run events init)).
Proof.
  assert (Hinv : sources_inv (run events init)).
  { induction events as [|e events IH] using rev_ind.
    - by repeat split.
    - rewrite run_snoc. by apply step_sources_inv. }
  by destruct Hinv as (? & _ & ?).
Qed.

(** ** Start times *)

Lemma starts_app tr tr' : starts (tr ++ tr') = starts tr ++ starts tr'.
Proof.
  induction tr as [|e tr IH]; [done|]. destruct e; cbn; by rewrite ?IH.
Qed.

Lemma neutral_starts new : Forall neutral new -> starts new = [].
Proof. induction 1 as [|e new He _ IH]; [done|]. by destruct e. Qed.

Lemma step_starts_nonnegative s e :
  (forall data, 0 <= duration (decodeAudioData data))%Q ->
  (0 <= nextStartTimeRef s)%Q /\ Forall (λ b, (0 <= b.1)%Q) (starts (trace s)) ->
  (0 <= nextStartTimeRef (step s e))%Q
  /\ Forall (λ b, (0 <= b.1)%Q) (starts (trace (step s e))).
Proof.
  intros Hduration [Hnext Hstarts].
  assert (Hstop : forall s0,
            (0 <= nextStartTimeRef s0)%Q
            /\ Forall (λ b, (0 <= b.1)%Q) (starts (trace s0)) ->
            (0 <= nextStartTimeRef (stopSession s0))%Q
            /\ Forall (λ b, (0 <= b.1)%Q) (starts (trace (stopSession s0)))).
  { intros s0 [Hn Hs]. rewrite stopSession_nextStartTimeRef.
    destruct (stopSession_calls s0) as (new & -> & Hnew).
    by rewrite starts_app, (neutral_starts new), app_nil_r. }
  destruct e; unfold step; try done.
  - unfold onClick. destruct (appState s); try done; by apply Hstop.
  - unfold onmessage.
    destruct (onmessage_rest_playback message
                (onmessage_interrupted message
                   (onmessage_audio currentTime message s)))
      as (-> & _ & rest & -> & Hrest).
    rewrite starts_app, (neutral_starts rest), app_nil_r by done.
    assert (Haudio :
              (0 <= nextStartTimeRef (onmessage_audio currentTime message s))%Q
              /\ Forall (λ b, (0 <= b.1)%Q)
                        (starts (trace (onmessage_audio currentTime message s)))).
    { destruct (onmessage_audio_cases currentTime message s)
        as [->|(data & ctx & Hdata & Hne & Hctx)]; [done|].
      destruct (onmessage_audio_schedules currentTime message data ctx s
                  Hdata Hne Hctx) as (-> & -> & _).
      assert (0 <= Qmax (nextStartTimeRef s) currentTime)%Q
        by (eapply Qle_trans; [exact Hnext | apply Q.le_max_l]).
      split.
      - apply number_add_nonneg; [done|apply Hduration].
      - rewrite starts_app. apply Forall_app. split; [done|].
        by repeat constructor. }
    destruct Haudio as [Hnext' Hstarts'].
    destruct (onmessage_interrupted_cases message
                (onmessage_audio currentTime message s))
      as [->|(content & Hcontent & Hint)]; [done|].
    destruct (onmessage_interrupted_flushes message content
                (onmessage_audio currentTime message s) Hcontent Hint)
      as (-> & -> & _).
    split; [done|].
    rewrite !starts_app, (neutral_starts (SourceStop <$> _))
      by apply stops_neutral.
    cbn. by rewrite app_nil_r.
  - unfold onerror. by apply (Hstop (setError _ s)).
Qed.

(** X9. A decoder never yields a buffer of negative duration; then in
    every run the next-start time is never negative and no buffer is
    started at a negative time, whatever the output clock reads. *)
Theorem starts_never_negative (events : list event) :
  (forall data, 0 <= duration (decodeAudioData data))%Q ->
  (0 <= nextStartTimeRef (run events init))%Q
  /\ Forall (λ b, (0 <= b.1)%Q) (starts (trace (run events init))).
Proof.
  intros Hduration. induction events as [|e events IH] using rev_ind.
  - split; [done|constructor].
  - rewrite run_snoc. by apply step_starts_nonnegative.
Qed.

Lemma onmessage_nextStartTimeRef currentTime message s :
  nextStartTimeRef (onmessage currentTime message s)
  = nextStartTimeRef_after s (OnMessage currentTime message).
Proof.
  unfold onmessage, nextStartTimeRef_after.
  destruct (onmessage_rest_playback message
              (onmessage_interrupted message
                 (onmessage_audio currentTime message s))) as (-> & _).
  unfold message_interrupted, onmessage_interrupted.
  destruct (serverContent message) as [content|] eqn:Hcontent.
  - destruct (interrupted content); [done|].
    unfold scheduled_audio, onmessage_audio.
    destruct (base64Audio message) as [data|]; [|done].
    destruct (outputAudioContextRef s) as [ctx|]; [|done].
    by case_bool_decide.
  - unfold scheduled_audio, onmessage_audio, base64Audio. by rewrite Hcontent.
Qed.

(** X10. The next-start time changes on messages only: a message with an
    interruption sets it to zero, another message with audio sets it to
    the start of the buffer it schedules plus the duration of that buffer,
    added as JavaScript numbers. No other event touches it; in particular,
    stopping a session and starting the next one do not reset it. *)
Theorem nextStartTimeRef_changes (s : state) (e : event) :
  nextStartTimeRef (step s e) = nextStartTimeRef_after s e.
Proof.
  destruct e; unfold step; try done.
  - unfold onClick. destruct (appState s); try done;
      apply stopSession_nextStartTimeRef.
  - apply onmessage_nextStartTimeRef.
  - unfold onerror. apply (stopSession_nextStartTimeRef (setError _ s)).
Qed.

(** ** The error message *)

Lemma step_error_nonempty s e :
  error s <> Some "" -> error (step s e) <> Some "".
Proof.
  intros Hs. destruct e; unfold step; try done.
  - unfold onClick. destruct (appState s); try done;
      by rewrite stopSession_error.
  - unfold startSession_catch, or_default. cbn.
    destruct message as [m|]; [|done].
    case_bool_decide; [done|]. by intros [= ->].
  - by destruct (onmessage_same_session currentTime message s) as (-> & _).
  - unfold onerror. by rewrite stopSession_error.
Qed.

(** X11. In every reachable state the error banner shows exactly the error
    held in the state: no callback stores an empty message, which the
    banner would hide. *)
Theorem errorBanner_shows_error (events : list event) :
  errorBanner (run events init) = error (run events init).
Proof.
  assert (Hne : error (run events init) <> Some "").
  { induction events as [|e events IH] using rev_ind; [done|].
    rewrite run_snoc. by apply step_error_nonempty. }
  unfold errorBanner. destruct (error (run events init)) as [m|]; [|done].
  case_bool_decide; [|done]. by subst m.
Qed.

(** ** Transcriptions *)

Lemma string_app_nil_r (a : string) : a +:+ "" = a.
Proof.
  induction a as [|c a IH]; [done|].
  change (String c (a +:+ "") = String c a). by rewrite IH.
Qed.

Lemma string_app_assoc (a b c : string) : (a +:+ b) +:+ c = a +:+ (b +:+ c).
Proof.
  induction a as [|x a IH]; [done|].
  change (String x ((a +:+ b) +:+ c) = String x (a +:+ (b +:+ c))).
  by rewrite IH.
Qed.

Lemma onmessage_toolCall_transcriptionBufferRef message s :
  transcriptionBufferRef (onmessage_toolCall message s)
  = transcriptionBufferRef s.
Proof.
  unfold onmessage_toolCall. destruct (toolCall message) as [fcs|]; [|done].
  apply (foldl_preserves
           (λ s', transcriptionBufferRef s' = transcriptionBufferRef s));
    [done|].
  intros a fc <-. callback onmessage_functionCall.
Qed.

Lemma onmessage_interrupted_transcriptionBufferRef message s :
  transcriptionBufferRef (onmessage_interrupted message s)
  = transcriptionBufferRef s.
Proof.
  unfold onmessage_interrupted.
  destruct (serverContent message) as [content|]; [|done].
  destruct (interrupted content); [|done]. cbn.
  by apply (stop_all_frame transcriptionBufferRef).
Qed.

Lemma onmessage_audio_transcriptionBufferRef currentTime message s :
  transcriptionBufferRef (onmessage_audio currentTime message s)
  = transcriptionBufferRef s.
Proof. callback onmessage_audio. Qed.

Lemma onmessage_transcriptionBufferRef currentTime message s :
  transcriptionBufferRef (onmessage currentTime message s)
  = if message_turnComplete message then ("", "")
    else ((transcriptionBufferRef s).1 +:+ message_inputTranscription message,
          (transcriptionBufferRef s).2).
Proof.
  unfold onmessage, onmessage_turnComplete, message_turnComplete,
    message_inputTranscription.
  destruct (serverContent message) as [content|] eqn:Hcontent.
  - destruct (turnComplete content); [done|].
    rewrite onmessage_toolCall_transcriptionBufferRef.
    unfold onmessage_inputTranscription. rewrite Hcontent.
    destruct (inputTranscription content) as [txt|]; cbn.
    + rewrite onmessage_interrupted_transcriptionBufferRef,
        onmessage_audio_transcriptionBufferRef.
      by destruct (transcriptionBufferRef s).
    + rewrite onmessage_interrupted_transcriptionBufferRef,
        onmessage_audio_transcriptionBufferRef, string_app_nil_r.
      by destruct (transcriptionBufferRef s).
  - rewrite onmessage_toolCall_transcriptionBufferRef.
    unfold onmessage_inputTranscription. rewrite Hcontent.
    rewrite onmessage_interrupted_transcriptionBufferRef,
      onmessage_audio_transcriptionBufferRef, string_app_nil_r.
    by destruct (transcriptionBufferRef s).
Qed.

Lemma step_transcriptions_unused s e :
  transcriptions s = [] /\ (transcriptionBufferRef s).2 = "" ->
  transcriptions (step s e) = []
  /\ (transcriptionBufferRef (step s e)).2 = "".
Proof.
  intros [Hlist Hmodel].
  assert (Hstop : forall s0,
            transcriptions s0 = [] /\ (transcriptionBufferRef s0).2 = "" ->
            transcriptions (stopSession s0) = []
            /\ (transcriptionBufferRef (stopSession s0)).2 = "").
  { intros s0 H0.
    replace (transcriptions (stopSession s0)) with (transcriptions s0)
      by callback stopSession.
    by replace (transcriptionBufferRef (stopSession s0))
      with (transcriptionBufferRef s0) by callback stopSession. }
  destruct e; unfold step; try done.
  - unfold onClick. destruct (appState s); try done; by apply Hstop.
  - destruct (onmessage_same_session currentTime message s) as (_ & -> & _).
    split; [done|]. rewrite onmessage_transcriptionBufferRef.
    by destruct (message_turnComplete message).
  - unfold onerror. by apply (Hstop (setError _ s)).
Qed.

(** X12. In every reachable state the list of transcriptions is empty and
    so is the model half of the transcription buffer: the component
    resets both and never writes to either. *)
Theorem transcriptions_never_filled (events : list event) :
  transcriptions (run events init) = []
  /\ (transcriptionBufferRef (run events init)).2 = "".
Proof.
  induction events as [|e events IH] using rev_ind; [done|].
  rewrite run_snoc. by apply step_transcriptions_unused.
Qed.

(** X13. Over messages none of which ends the turn, the user half of the
    transcription buffer grows by what the input transcriptions of those
    messages append, in order: the text of a transcription, and the string
    ["undefined"] for a transcription without text. Audio, interruptions
    and tool calls in the same messages do not disturb it. *)
Theorem inputTranscription_accumulates
    (l : list (Q * LiveServerMessage)) (s : state) :
  Forall (λ tm, message_turnComplete tm.2 = false) l ->
  (transcriptionBufferRef (run (messages l) s)).1
  = (transcriptionBufferRef s).1 +:+ transcribed l.
Proof.
  intros Hl. revert s. induction Hl as [|tm l Htm _ IH]; intros s.
  - cbn. by rewrite string_app_nil_r.
  - cbn [messages fmap list_fmap run foldl step transcribed foldr].
    change (foldl step ?a (_ <$> l)) with (run (messages l) a).
    rewrite IH, onmessage_transcriptionBufferRef, Htm. cbn [fst].
    apply string_app_assoc.
Qed.

(** ** Stop and close together *)

(** X14. The close callback that follows a stop changes nothing, and a
    stop after the session has closed ends in the state a stop alone
    reaches: the two can arrive in either order. *)
Theorem onclose_and_stopSession (s : state) :
  onclose (stopSession s) = stopSession s
  /\ stopSession (onclose s) = stopSession s.
Proof.
  destruct s as [a ts vh er fl [se|] [ic|] [oc|] gn nx so tb lv nh tr];
    by split.
Qed.

(** ** The keys of the rendered verses *)

Lemma no_dash_after_dash (p d : string) : ~ no_dash (p +:+ "-" +:+ d).
Proof.
  induction p as [|c p IH].
  - change (~ no_dash (String "-" d)). by intros [? _].
  - change (~ no_dash (String c (p +:+ "-" +:+ d))). by intros [_ ?].
Qed.

Lemma after_last_dash (p1 p2 d1 d2 : string) :
  no_dash d1 -> no_dash d2 ->
  p1 +:+ "-" +:+ d1 = p2 +:+ "-" +:+ d2 -> d1 = d2.
Proof.
  intros H1 H2. revert p2.
  induction p1 as [|c p1 IH]; intros [|c' p2].
  - change (String "-" d1 = String "-" d2 -> d1 = d2). by intros [= ->].
  - change (String "-" d1 = String c' (p2 +:+ "-" +:+ d2) -> d1 = d2).
    intros [= _ ->]. by apply no_dash_after_dash in H1.
  - change (String c (p1 +:+ "-" +:+ d1) = String "-" d2 -> d1 = d2).
    intros [= _ <-]. by apply no_dash_after_dash in H2.
  - change (String c (p1 +:+ "-" +:+ d1) = String c' (p2 +:+ "-" +:+ d2)
            -> d1 = d2).
    intros [= _ H]. by apply (IH p2).
Qed.

Lemma string_of_uint_no_dash (d : Decimal.uint) :
  no_dash (NilEmpty.string_of_uint d).
Proof. induction d; cbn; by repeat split. Qed.

Lemma String_of_index_inj (i j : nat) :
  String_of_index i = String_of_index j -> i = j.
Proof.
  unfold String_of_index. intros H.
  apply (f_equal NilEmpty.uint_of_string) in H.
  rewrite !NilEmpty.usu in H. injection H as H.
  by apply DecimalNat.Unsigned.to_uint_inj.
Qed.

Lemma verseKey_inj_index v1 v2 (i j : nat) :
  verseKey v1 i = verseKey v2 j -> i = j.
Proof.
  unfold verseKey. intros H. apply String_of_index_inj.
  apply (after_last_dash (surahName v1 +:+ "-" +:+ ayahNumber v1)
                         (surahName v2 +:+ "-" +:+ ayahNumber v2));
    [apply string_of_uint_no_dash..|].
  by rewrite !string_app_assoc.
Qed.

(** X15. The React keys of the rendered verses are pairwise different for
    every history, whatever the names and numbers of its verses, hyphens
    in them included: the index that ends a key tells it apart. *)
Theorem verseKeys_distinct (history : list VerseIdentification) :
  NoDup (verseKeys history).
Proof.
  apply NoDup_alt. intros i j key Hi Hj. unfold verseKeys in *.
  rewrite list_lookup_imap in Hi. rewrite list_lookup_imap in Hj.
  destruct (history !! i) as [vi|]; [|done].
  destruct (history !! j) as [vj|]; [|done].
  cbn in *. apply (verseKey_inj_index vi vj). congruence.
Qed.

(** ** Objects dropped without being closed *)

Lemma step_never_closes_dropped s e (h : handle) :
  (h < next_handle s)%nat /\ (h ∉ held s) /\ (h ∉ closes (trace s)) ->
  (h < next_handle (step s e))%nat
  /\ (h ∉ held (step s e)) /\ (h ∉ closes (trace (step s e))).
Proof.
  intros (Hlt & Hheld & Hclosed).
  assert (Hstop : forall s0,
            (h < next_handle s0)%nat /\ (h ∉ held s0)
            /\ (h ∉ closes (trace s0)) ->
            (h < next_handle (stopSession s0))%nat
            /\ (h ∉ held (stopSession s0))
            /\ (h ∉ closes (trace (stopSession s0)))).
  { intros s0 (H1 & H2 & H3).
    destruct (stopSession_resources s0) as (-> & -> & ->).
    repeat split; [done|apply not_elem_of_nil|].
    rewrite elem_of_app. tauto. }
  destruct e; unfold step; try done.
  - unfold onClick. destruct (appState s); try done; by apply Hstop.
  - unfold held in *. cbn. repeat split; [lia| |done].
    intros Hin. apply elem_of_app in Hin as [Hin|Hin].
    + apply Hheld. apply elem_of_app. by left.
    + apply elem_of_cons in Hin as [->|Hin]; [lia|].
      apply list_elem_of_singleton in Hin. lia.
  - unfold held in *. cbn. repeat split; [lia| |done].
    intros Hin. apply elem_of_cons in Hin as [->|Hin]; [lia|].
    apply Hheld. apply elem_of_app. by right.
  - pose proof (onmessage_next_handle currentTime message s).
    rewrite onmessage_held.
    destruct (onmessage_trace currentTime message s)
      as (playback & -> & Hcalls).
    rewrite !closes_app, (playback_call_closes playback),
      toolResponse_closes, !app_nil_r by done.
    repeat split; [lia|done|done].
  - unfold onerror. by apply (Hstop (setError _ s)).
Qed.

(** X16. An object that exists, is held by no ref and has not been closed
    is never closed afterwards, whatever happens: what a restart or a
    failed start drops from the refs stays open for good. *)
Theorem dropped_object_never_closed
    (s : state) (h : handle) (events : list event) :
  (h < next_handle s)%nat -> h ∉ held s -> h ∉ closes (trace s) ->
  h ∉ closes (trace (run events s)).
Proof.
  intros Hlt Hheld Hclosed.
  assert (Hinv : (h < next_handle (run events s))%nat
                 /\ (h ∉ held (run events s))
                 /\ (h ∉ closes (trace (run events s)))).
  { induction events as [|e events IH] using rev_ind; [done|].
    rewrite run_snoc. by apply step_never_closes_dropped. }
  by destruct Hinv as (_ & _ & ?).
Qed.

(** ** The number of verses tracked *)

Lemma run_messages_keys (l : list (Q * LiveServerMessage)) s k :
  k ∈ verse_key <$> verseHistory (run (messages l) s)
  <-> k ∈ verse_key <$> verseHistory s \/ k ∈ identified_keys l.
Proof.
  revert s. induction l as [|tm l IH]; intros s.
  - cbn. rewrite elem_of_nil. tauto.
  - change (run (messages (tm :: l)) s)
      with (run (messages l) (onmessage tm.1 tm.2 s)).
    rewrite IH, addVerse_fold_keys_onmessage.
    unfold identified_keys. cbn. rewrite elem_of_app. tauto.
Qed.

Lemma run_messages_NoDup (l : list (Q * LiveServerMessage)) s :
  NoDup (verse_key <$> verseHistory s) ->
  NoDup (verse_key <$> verseHistory (run (messages l) s)).
Proof.
  revert s. induction l as [|tm l IH]; intros s Hs; [done|].
  change (run (messages (tm :: l)) s)
    with (run (messages l) (step s (OnMessage tm.1 tm.2))).
  by apply IH, step_verseHistory_NoDup.
Qed.

(** X17. From an empty history, the number of verses tracked after a
    series of messages is the number of different (surah, ayah) pairs the
    messages identify, however often each pair is reported. *)
Theorem verses_tracked_count (l : list (Q * LiveServerMessage)) (s : state) :
  verseHistory s = [] ->
  length (verseHistory (run (messages l) s))
  = length (remove_dups (identified_keys l)).
Proof.
  intros Hempty.
  rewrite <- (length_fmap verse_key). apply Permutation_length.
  apply NoDup_Permutation.
  - apply run_messages_NoDup. rewrite Hempty. apply NoDup_nil_2.
  - apply NoDup_remove_dups.
  - intros k. rewrite run_messages_keys, elem_of_remove_dups, Hempty.
    cbn. rewrite elem_of_nil. tauto.
Qed.

End Session.

(** C4, as the specification has it, fails: when [startSession] throws
    while the state is connecting (the microphone is refused, say), the
    [catch] block sets the state to idle, and connecting to idle is not one
    of the edges listed. *)
Lemma spec_edges_only_fails : ~ spec_edges_only five_seconds.
Proof.
  intros Hspec.
  destruct (Hspec [Click] (StartThrows (Some "Permission denied"))) as [H|H].
  - discriminate H.
  - inversion H.
Qed.

(** C5 on the start-failure path. The session service refuses the
    connection after both audio contexts were created: the message is
    shown and the state is idle, but no context is closed and both refs
    still hold their context, where the stream-error path
    ([onerror_tears_down]) releases them. *)
Theorem startSession_failure_skips_teardown :
  let s := run five_seconds
             [Click; GetUserMediaResolved; StartThrows (Some "WebSocket closed")]
             init in
  error s = Some "WebSocket closed"
  /\ appState s = IDLE
  /\ audioContextRef s = Some 0%nat
  /\ outputAudioContextRef s = Some 1%nat
  /\ trace s = []
  /\ ~ torn_down s.
Proof.
  cbn. repeat split. intros (_ & H & _). discriminate H.
Qed.

(** C3, as the specification has it, fails twice. After an interruption
    the next buffer starts at the output clock, here 12, before the
    scheduled end, 15, of the buffer the interruption stopped. And with no
    interruption at all, a buffer that arrives when the clock, here 8, has
    passed the end of the one before it, 5, starts at the clock: a gap. *)
Lemma spec_playback_fails :
  ~ spec_no_overlap five_seconds /\ ~ spec_no_gap five_seconds.
Proof.
  split; intros Hspec.
  - pose proof (Hspec (listening ++ [OnMessage 10 (audio_message "AAAA");
                                     OnMessage 11 interruption;
                                     OnMessage 12 (audio_message "BBBB")]))
      as H.
    replace (starts _) with [(10, 5); (12, 5)]%Q in H
      by (vm_compute; reflexivity).
    destruct H as [H _]. unfold not_before_end in H. cbn in H. lra.
  - pose proof (Hspec (listening ++ [OnMessage 0 (audio_message "AAAA");
                                     OnMessage 8 (audio_message "BBBB")]))
      as H.
    replace (starts _) with [(0, 5); (8, 5)]%Q in H
      by (vm_compute; reflexivity).
    destruct H as [H _]. unfold back_to_back in H. cbn in H. lra.
Qed.

(** ** The theorems at work *)

Lemma verseHistory_entries_immutable_witness :
  let s := run five_seconds
             (listening ++ [OnMessage 10 (identify (al_fatiha "1"))]) init in
  let s' := onmessage five_seconds 12 (identify (al_fatiha "2")) s in
  verseHistory s !! 0%nat = Some (al_fatiha "1")
  /\ verseHistory s' !! 0%nat = Some (al_fatiha "1")
  /\ verseHistory s `prefix_of` verseHistory s'.
Proof.
  cbv zeta. split; [reflexivity|].
  apply (verseHistory_entries_immutable five_seconds 12
           (identify (al_fatiha "2"))
           (run five_seconds
              (listening ++ [OnMessage 10 (identify (al_fatiha "1"))]) init)
           0%nat (al_fatiha "1")).
  reflexivity.
Defined.

Lemma audio_starts_at_max_witness :
  let s := run five_seconds listening init in
  let content := {| modelTurn_data := Some "AAAA"; interrupted := false;
                    inputTranscription := None; turnComplete := false |} in
  let message := audio_message "AAAA" in
  (serverContent message = Some content
   /\ modelTurn_data content = Some "AAAA" /\ "AAAA" <> ""
   /\ outputAudioContextRef s = Some 1%nat)
  /\ trace (onmessage_audio five_seconds 10 message s)
     = [SourceStart 4 (Qmax 0 10) {| duration := 5 |}]
  /\ nextStartTimeRef (onmessage_audio five_seconds 10 message s)
     = number_add (Qmax 0 10) 5
  /\ [SourceStart 4 (Qmax 0 10) {| duration := 5 |}]
       `prefix_of` trace (onmessage five_seconds 10 message s)
  /\ (interrupted content = false ->
      nextStartTimeRef (onmessage five_seconds 10 message s)
      = number_add (Qmax 0 10) 5).
Proof.
  cbv zeta. split; [repeat split; discriminate|].
  apply (audio_starts_at_max five_seconds 10 (audio_message "AAAA")
           {| modelTurn_data := Some "AAAA"; interrupted := false;
              inputTranscription := None; turnComplete := false |}
           "AAAA" 1%nat (run five_seconds listening init));
    [reflexivity | reflexivity | discriminate | reflexivity].
Defined.

Lemma playback_sources_transient_witness :
  let s := run five_seconds
             (listening ++ [OnMessage 10 (audio_message "AAAA")]) init in
  let content := {| modelTurn_data := None; interrupted := true;
                    inputTranscription := None; turnComplete := false |} in
  let s' := onmessage five_seconds 11 interruption s in
  (serverContent interruption = Some content /\ interrupted content = true)
  /\ sourcesRef s = [4%nat]
  /\ sourcesRef s' = [] /\ nextStartTimeRef s' = 0%Q
  /\ sourcesRef s ⊆ sourcesRef (onmessage_audio five_seconds 11 interruption s)
  /\ exists new,
       trace s' = trace s ++ new
       /\ all_stopped
            (sourcesRef (onmessage_audio five_seconds 11 interruption s)) new.
Proof.
  cbv zeta. split; [by split|]. split; [reflexivity|].
  apply (proj2 (playback_sources_transient five_seconds) 11%Q interruption
           {| modelTurn_data := None; interrupted := true;
              inputTranscription := None; turnComplete := false |}
           (run five_seconds
              (listening ++ [OnMessage 10 (audio_message "AAAA")]) init));
    reflexivity.
Defined.

Lemma verseHistory_provenance_witness :
  let events := listening ++ [OnMessage 10 (identify (al_fatiha "1"))] in
  al_fatiha "1" ∈ verseHistory (run five_seconds events init)
  /\ exists currentTime message fc,
       OnMessage currentTime message ∈ events
       /\ fc ∈ identified message /\ FunctionCall.args fc = al_fatiha "1".
Proof.
  cbv zeta.
  assert (H : al_fatiha "1"
              ∈ verseHistory
                  (run five_seconds
                     (listening ++ [OnMessage 10 (identify (al_fatiha "1"))])
                     init))
    by (vm_compute; constructor).
  split; [exact H|].
  exact (verseHistory_provenance five_seconds
           (listening ++ [OnMessage 10 (identify (al_fatiha "1"))])
           (al_fatiha "1") H).
Defined.

Lemma starts_never_negative_witness :
  let events := listening ++ [OnMessage 10 (audio_message "AAAA");
                              OnMessage 11 interruption;
                              OnMessage 12 (audio_message "BBBB")] in
  (forall data, 0 <= duration (five_seconds data))%Q
  /\ (0 <= nextStartTimeRef (run five_seconds events init))%Q
  /\ Forall (λ b, (0 <= b.1)%Q) (starts (trace (run five_seconds events init))).
Proof.
  cbv zeta.
  assert (H : forall data, (0 <= duration (five_seconds data))%Q)
    by (intros data; vm_compute; discriminate).
  split; [exact H|].
  exact (starts_never_negative five_seconds
           (listening ++ [OnMessage 10 (audio_message "AAAA");
                          OnMessage 11 interruption;
                          OnMessage 12 (audio_message "BBBB")]) H).
Defined.

Lemma inputTranscription_accumulates_witness :
  let l := [(10%Q, transcript (Some "bismi")); (11%Q, transcript None);
     (12%Q, transcript (Some "llah"))] in
  let s := run five_seconds listening init in
  Forall (λ tm, message_turnComplete tm.2 = false) l
  /\ (transcriptionBufferRef (run five_seconds (messages l) s)).1
     = (transcriptionBufferRef s).1 +:+ transcribed l.
Proof.
  cbv zeta.
  assert (H : Forall (λ tm, message_turnComplete tm.2 = false)
                [(10%Q, transcript (Some "bismi")); (11%Q, transcript None);
     (12%Q, transcript (Some "llah"))])
    by (repeat constructor).
  split; [exact H|].
  exact (inputTranscription_accumulates five_seconds
           [(10%Q, transcript (Some "bismi")); (11%Q, transcript None);
     (12%Q, transcript (Some "llah"))]
           (run five_seconds listening init) H).
Defined.

Lemma dropped_object_never_closed_witness :
  let s := run five_seconds
             [Click; GetUserMediaResolved; StartThrows (Some "WebSocket closed");
              Click; GetUserMediaResolved] init in
  let events := [OnOpen; SessionResolved; Click] in
  ((0 < next_handle s)%nat /\ (0%nat ∉ held s) /\ (0%nat ∉ closes (trace s)))
  /\ (0%nat ∉ closes (trace (run five_seconds events s))).
Proof.
  cbv zeta.
  assert (H1 : (0 < next_handle
                     (run five_seconds
                        [Click; GetUserMediaResolved;
                         StartThrows (Some "WebSocket closed");
                         Click; GetUserMediaResolved] init))%nat)
    by (vm_compute; lia).
  assert (H2 : 0%nat ∉ held
                 (run five_seconds
                    [Click; GetUserMediaResolved;
                     StartThrows (Some "WebSocket closed");
                     Click; GetUserMediaResolved] init))
    by (apply (bool_decide_unpack _); vm_compute; exact I).
  assert (H3 : 0%nat ∉ closes
                 (trace
                    (run five_seconds
                       [Click; GetUserMediaResolved;
                        StartThrows (Some "WebSocket closed");
                        Click; GetUserMediaResolved] init)))
    by (apply (bool_decide_unpack _); vm_compute; exact I).
  split; [by repeat split|].
  exact (dropped_object_never_closed five_seconds _ 0%nat
           [OnOpen; SessionResolved; Click] H1 H2 H3).
Defined.

Lemma verses_tracked_count_witness :
  let l := [(10%Q, identify (al_fatiha "1")); (11%Q, identify (al_fatiha "1"));
            (12%Q, identify (al_fatiha "2"))] in
  let s := run five_seconds listening init in
  verseHistory s = []
  /\ length (verseHistory (run five_seconds (messages l) s))
     = length (remove_dups (identified_keys l)).
Proof.
  cbv zeta. split; [reflexivity|].
  apply (verses_tracked_count five_seconds
           [(10%Q, identify (al_fatiha "1")); (11%Q, identify (al_fatiha "1"));
            (12%Q, identify (al_fatiha "2"))]
           (run five_seconds listening init)).
  reflexivity.
Defined.

Lemma playback_schedule_witness :
  let s := run five_seconds listening init in
  let events := [OnMessage 10 (audio_message "AAAA");
                 OnMessage 11 (identify (al_fatiha "1"))] in
  let s' := run five_seconds events s in
  (GetUserMediaResolved ∉ events)
  /\ (base64Audio (audio_message "BBBB") = Some "BBBB" /\ "BBBB" <> ""
      /\ outputAudioContextRef s' = Some 1%nat)
  /\ outputAudioContextRef s = Some 1%nat
  /\ trace (onmessage_audio five_seconds 12 (audio_message "BBBB") s')
     = trace s' ++ [SourceStart 5 (Qmax 15 12) (five_seconds "BBBB")]
  /\ (Qmax 15 12 == 15)%Q.
Proof.
  cbv zeta.
  assert (Hno : GetUserMediaResolved
                ∉ [OnMessage 10 (audio_message "AAAA");
                   OnMessage 11 (identify (al_fatiha "1"))]).
  { intros Hin.
    repeat (apply elem_of_cons in Hin as [Hin|Hin]; [discriminate Hin|]).
    by apply elem_of_nil in Hin. }
  split; [exact Hno|]. split; [repeat split; discriminate|].
  destruct (playback_schedule five_seconds (run five_seconds listening init)
              [OnMessage 10 (audio_message "AAAA");
               OnMessage 11 (identify (al_fatiha "1"))] Hno)
    as (new & Htrace & _ & _ & Hnext).
  assert (Hnew : new = [SourceStart 4 10 (five_seconds "AAAA");
                        SendToolResponse "call-1" "identifyQuranVerse"]).
  { symmetry. exact Htrace. }
  subst new.
  destruct (Hnext 12%Q (audio_message "BBBB") "BBBB" 1%nat 15%Q)
    as (Hctx & Hstart & Hgapless & _);
    [reflexivity | discriminate | reflexivity | reflexivity |].
  split; [exact Hctx|]. split; [exact Hstart|].
  apply Hgapless. discriminate.
Defined.

(** The schedule of two buffers in a row: the second, arriving at clock 12
    while the first is recorded to end at 15, is started at 15. *)
Lemma playback_schedule_example :
  starts (trace (run five_seconds
                   (listening ++ [OnMessage 10 (audio_message "AAAA");
                                  OnMessage 12 (audio_message "BBBB")])
                   init))
  = [(10, 5); (15, 5)]%Q.
Proof. vm_compute. reflexivity. Qed.
